(** * Data Analysis Dashboard: the tabular operations of [app.py]

    [app.py] is a Streamlit script: it loads one pandas DataFrame [df] and,
    depending on the page chosen in the sidebar, evaluates a few pandas
    expressions on it.  This development embeds the pages that compute
    something (outlier detection, correlation, trend detection, cleaning)
    together with the pandas operations they call, and proves the properties
    the specification states about them.

    Numbers.  pandas stores a numeric column as binary64 floating-point
    numbers and marks a missing entry with NaN.  The program below is written
    once, over an interface [Arith] of the arithmetic it uses, and is read at
    two instances:
    - [binary64], the IEEE-754 double precision numbers of the kernel
      ([PrimFloat]), on which every definition evaluates;
    - [exact], the real numbers extended with NaN, in which no operation
      rounds.
    Statements about the shape of a result (which rows are selected, which
    entries are filled, what is left unchanged) are proved for both at once;
    statements that need algebra are proved at [exact]; the scenarios of the
    specification are evaluated at [binary64].

    Tables.  A column is numeric ([float64]; an integer column is a numeric
    column without missing entries, seen through its conversion to binary64)
    or of dtype [object] (text).  Sums are accumulated from left to right. *)

From Stdlib Require Import String List ZArith Bool Arith Lia.
From Stdlib Require Import Floats.
From Stdlib Require Import Reals Lra.
From Stdlib Require Import Sorted Permutation.
From Stdlib Require Uint63.
Import ListNotations.

Set Implicit Arguments.
Local Open Scope string_scope.
Local Open Scope list_scope.

(** ** Exceptions

    A Python exception is identified by the name of its class. *)

Inductive result (A : Type) : Type :=
| Ok (a : A)
| Raise (exn : string).

Arguments Ok {A} a.
Arguments Raise {A} exn.

Definition bind {A B : Type} (r : result A) (k : A -> result B) : result B :=
  match r with
  | Ok a => k a
  | Raise e => Raise e
  end.

Declare Scope py_scope.
Delimit Scope py_scope with py.
Notation "x <- r ;; k" := (bind r (fun x => k))
  (at level 61, r at next level, right associativity) : py_scope.

Definition KeyError : string := "KeyError".
Definition TypeError : string := "TypeError".

(** ** The arithmetic of a numeric column *)

Class Arith (F : Type) : Type := {
  fnan : F;
  fisnan : F -> bool;
  of_Z : Z -> F;
  fadd : F -> F -> F;
  fsub : F -> F -> F;
  fmul : F -> F -> F;
  fdiv : F -> F -> F;
  fsqrt : F -> F;
  flt : F -> F -> bool;
  feq : F -> F -> bool
}.

(** What the proofs use of NaN and of comparisons: a NaN is neither below nor
    above anything, [<] is asymmetric and excludes [==], and a difference
    with a NaN operand is NaN. *)

Class ArithLaws (F : Type) {A : Arith F} : Prop := {
  flt_nan_l : forall x y, fisnan x = true -> flt x y = false;
  flt_nan_r : forall x y, fisnan y = true -> flt x y = false;
  flt_asym : forall x y, flt x y = true -> flt y x = false;
  feq_not_lt : forall x y, feq x y = true -> flt x y = false /\ flt y x = false;
  fnan_isnan : fisnan fnan = true;
  fsub_nan_l : forall x y, fisnan x = true -> fisnan (fsub x y) = true;
  fsub_nan_r : forall x y, fisnan y = true -> fisnan (fsub x y) = true
}.

Arguments ArithLaws F {A}.

(** *** IEEE-754 double precision *)

Definition float_of_Z (z : Z) : float :=
  match z with
  | Z0 => PrimFloat.zero
  | Zpos _ => PrimFloat.of_uint63 (Uint63.of_Z z)
  | Zneg _ => PrimFloat.opp (PrimFloat.of_uint63 (Uint63.of_Z (Z.opp z)))
  end.

#[export] Instance binary64 : Arith float := {
  fnan := PrimFloat.nan;
  fisnan := PrimFloat.is_nan;
  of_Z := float_of_Z;
  fadd := PrimFloat.add;
  fsub := PrimFloat.sub;
  fmul := PrimFloat.mul;
  fdiv := PrimFloat.div;
  fsqrt := PrimFloat.sqrt;
  flt := PrimFloat.ltb;
  feq := PrimFloat.eqb
}.

(** *** Real numbers with NaN

    [None] is NaN.  There are no infinities: the program divides by a count
    it has tested to be positive or by a divisor it has tested to be
    non-zero, so the quotient by zero is never taken. *)

Definition exact : Type := option R.

Definition lift2 (op : R -> R -> R) (x y : exact) : exact :=
  match x, y with
  | Some a, Some b => Some (op a b)
  | _, _ => None
  end.

Definition exact_sqrt (x : exact) : exact :=
  match x with
  | Some a => if Rlt_dec a 0 then None else Some (sqrt a)
  | None => None
  end.

Definition exact_lt (x y : exact) : bool :=
  match x, y with
  | Some a, Some b => if Rlt_dec a b then true else false
  | _, _ => false
  end.

Definition exact_eq (x y : exact) : bool :=
  match x, y with
  | Some a, Some b => if Req_dec_T a b then true else false
  | _, _ => false
  end.

Definition exact_isnan (x : exact) : bool :=
  match x with
  | Some _ => false
  | None => true
  end.

#[export] Instance exact_arith : Arith exact := {
  fnan := None;
  fisnan := exact_isnan;
  of_Z := fun z => Some (IZR z);
  fadd := lift2 Rplus;
  fsub := lift2 Rminus;
  fmul := lift2 Rmult;
  fdiv := lift2 Rdiv;
  fsqrt := exact_sqrt;
  flt := exact_lt;
  feq := exact_eq
}.

(** ** Tables

    A DataFrame is an index of row labels and an ordered list of named
    columns.  A numeric column ([float64]) holds numbers, NaN where the entry
    is missing; an [object] column holds Python objects (the strings of a
    text column), [None] where the entry is missing. *)

Inductive pyobj : Type :=
| PyStr (s : string)
| PyInt (z : Z).

Section Pandas.

Context {F : Type} {A : Arith F}.

Inductive series : Type :=
| Float64 (xs : list F)
| Object (xs : list (option pyobj)).

Record frame : Type := {
  index : list nat;
  columns : list (string * series)
}.

Definition series_len (s : series) : nat :=
  match s with
  | Float64 xs => length xs
  | Object xs => length xs
  end.

(** [df.shape[0]] and [df.shape[1]] *)
Definition shape0 (df : frame) : nat := length (index df).
Definition shape1 (df : frame) : nat := length (columns df).

(** [df.columns.tolist()] *)
Definition columns_tolist (df : frame) : list string := map fst (columns df).

Fixpoint nodup_names (l : list string) : bool :=
  match l with
  | [] => true
  | x :: tl => negb (existsb (String.eqb x) tl) && nodup_names tl
  end.

(** The invariant of a DataFrame: every column has one entry per row label
    and the column names are distinct. *)
Definition wf_frame (df : frame) : bool :=
  forallb (fun c => Nat.eqb (series_len (snd c)) (shape0 df)) (columns df)
  && nodup_names (columns_tolist df).

(** [Series.isna()] *)
Definition isna (s : series) : list bool :=
  match s with
  | Float64 xs => map fisnan xs
  | Object xs => map (fun o => match o with None => true | Some _ => false end) xs
  end.

(** Boolean indexing [xs[mask]]: the entries at which the mask is [True]. *)
Fixpoint mask_filter {X : Type} (mask : list bool) (xs : list X) : list X :=
  match mask, xs with
  | b :: mask', x :: xs' =>
      if b then x :: mask_filter mask' xs' else mask_filter mask' xs'
  | _, _ => []
  end.

Definition series_mask (mask : list bool) (s : series) : series :=
  match s with
  | Float64 xs => Float64 (mask_filter mask xs)
  | Object xs => Object (mask_filter mask xs)
  end.

(** [df[mask]]: the rows at which the mask is [True], with their labels and
    all columns. *)
Definition frame_mask (df : frame) (mask : list bool) : frame :=
  {| index := mask_filter mask (index df);
     columns := map (fun c => (fst c, series_mask mask (snd c))) (columns df) |}.

Definition is_number (s : series) : bool :=
  match s with
  | Float64 _ => true
  | Object _ => false
  end.

(** [df.select_dtypes(include="number")] *)
Definition select_dtypes_number (df : frame) : frame :=
  {| index := index df;
     columns := filter (fun c => is_number (snd c)) (columns df) |}.

Fixpoint lookup {X : Type} (name : string) (l : list (string * X)) : option X :=
  match l with
  | [] => None
  | (n, x) :: tl => if String.eqb name n then Some x else lookup name tl
  end.

(** [df[col]].  [col] is what the select box returned: a column name, or
    [None] when it had no options. *)
Definition getitem (df : frame) (col : option string) : result series :=
  match col with
  | None => Raise KeyError
  | Some name =>
      match lookup name (columns df) with
      | Some s => Ok s
      | None => Raise KeyError
      end
  end.

(** [st.selectbox(label, options)]: the option at the position the user
    picked, [None] when there is none. *)
Definition selectbox (options : list string) (choice : nat) : option string :=
  nth_error options choice.

(** *** Reductions of a numeric column *)

Definition notna_values (xs : list F) : list F :=
  filter (fun x => negb (fisnan x)) xs.

Fixpoint insert_sorted (x : F) (l : list F) : list F :=
  match l with
  | [] => [x]
  | y :: tl => if flt y x then y :: insert_sorted x tl else x :: l
  end.

Definition sort_values (l : list F) : list F :=
  fold_right insert_sorted [] l.

(** [Series.quantile(q)] with [q = num/den], linear interpolation: over the
    sorted non-missing values [v], at position [(n-1)*q] with integer part
    [j] and fraction [g], the result is [v[j] + (v[j+1] - v[j]) * g]; NaN
    when there is no value. *)
Definition quantile_values (xs : list F) (num den : Z) : F :=
  let v := sort_values (notna_values xs) in
  let n := Z.of_nat (length v) in
  if (n =? 0)%Z then fnan
  else
    let pos := ((n - 1) * num)%Z in
    let j := (pos / den)%Z in
    let g := fdiv (of_Z (pos mod den)) (of_Z den) in
    let lo := nth (Z.to_nat j) v fnan in
    let hi := nth (Z.to_nat (Z.min (j + 1) (n - 1))) v fnan in
    fadd lo (fmul (fsub hi lo) g).

Definition quantile (s : series) (num den : Z) : result F :=
  match s with
  | Float64 xs => Ok (quantile_values xs num den)
  | Object _ => Raise TypeError
  end.

Definition fsum (xs : list F) : F := fold_left fadd xs (of_Z 0).

(** [Series.mean()] ([skipna=True]): the mean of the non-missing values, NaN
    when there is none. *)
Definition nanmean (xs : list F) : F :=
  let v := notna_values xs in
  if (length v =? 0)%nat then fnan
  else fdiv (fsum v) (of_Z (Z.of_nat (length v))).

(** [Series.median()]: the 50th percentile of the non-missing values. *)
Definition nanmedian (xs : list F) : F := quantile_values xs 1 2.

Fixpoint diffs (prev : F) (xs : list F) : list F :=
  match xs with
  | [] => []
  | x :: tl => fsub x prev :: diffs x tl
  end.

(** [Series.diff()]: entry [i] is [x[i] - x[i-1]], entry [0] is NaN. *)
Definition diff_values (xs : list F) : list F :=
  match xs with
  | [] => []
  | x :: tl => fnan :: diffs x tl
  end.

Fixpoint zip_with {X Y W : Type} (f : X -> Y -> W) (xs : list X) (ys : list Y)
  : list W :=
  match xs, ys with
  | x :: xs', y :: ys' => f x y :: zip_with f xs' ys'
  | _, _ => []
  end.

(** [s < bound] and [s > bound], entry by entry *)
Definition series_lt (s : series) (bound : F) : result (list bool) :=
  match s with
  | Float64 xs => Ok (map (fun x => flt x bound) xs)
  | Object _ => Raise TypeError
  end.

Definition series_gt (s : series) (bound : F) : result (list bool) :=
  match s with
  | Float64 xs => Ok (map (fun x => flt bound x) xs)
  | Object _ => Raise TypeError
  end.

Definition series_diff (s : series) : result series :=
  match s with
  | Float64 xs => Ok (Float64 (diff_values xs))
  | Object _ => Raise TypeError
  end.

Definition series_mean (s : series) : result F :=
  match s with
  | Float64 xs => Ok (nanmean xs)
  | Object _ => Raise TypeError
  end.

(** ** Page 4: outlier detection (IQR method) *)

Record outlier_report : Type := {
  Q1 : F;
  Q3 : F;
  IQR : F;
  lower : F;
  upper : F;
  outliers : frame;
  total : nat
}.

(** The literal [1.5] *)
Definition one_and_half : F := fdiv (of_Z 3) (of_Z 2).

(** Lines 126-135, for the column [col] picked in the select box. *)
Definition detect (df : frame) (col : option string) : result outlier_report :=
  (s <- getitem df col ;;
   q1 <- quantile s 1 4 ;;
   q3 <- quantile s 3 4 ;;
   let iqr := fsub q3 q1 in
   let lo := fsub q1 (fmul one_and_half iqr) in
   let hi := fadd q3 (fmul one_and_half iqr) in
   below <- series_lt s lo ;;
   above <- series_gt s hi ;;
   let out := frame_mask df (zip_with orb below above) in
   Ok {| Q1 := q1; Q3 := q3; IQR := iqr; lower := lo; upper := hi;
         outliers := out; total := shape0 out |})%py.

(** Lines 123-135: the select box offers the numeric columns only. *)
Definition outlier_page (df : frame) (choice : nat) : result outlier_report :=
  let num_cols := columns_tolist (select_dtypes_number df) in
  let col := selectbox num_cols choice in
  detect df col.

(** ** Page 5: correlation

    [DataFrame.corr()] is the Pearson coefficient over the rows in which both
    columns are present, accumulated by Welford's method as pandas does; an
    entry is NaN when no row is available or the divisor is zero. *)

Record welford : Type := {
  nobs : Z;
  meanx : F;
  meany : F;
  ssqdm_x : F;
  ssqdm_y : F;
  covxy : F
}.

Definition welford_init : welford :=
  {| nobs := 0; meanx := of_Z 0; meany := of_Z 0;
     ssqdm_x := of_Z 0; ssqdm_y := of_Z 0; covxy := of_Z 0 |}.

Definition welford_step (w : welford) (v : F * F) : welford :=
  let (vx, vy) := v in
  if fisnan vx || fisnan vy then w
  else
    let n := (nobs w + 1)%Z in
    let dx := fsub vx (meanx w) in
    let dy := fsub vy (meany w) in
    let mx := fadd (meanx w) (fmul (fdiv (of_Z 1) (of_Z n)) dx) in
    let my := fadd (meany w) (fmul (fdiv (of_Z 1) (of_Z n)) dy) in
    {| nobs := n; meanx := mx; meany := my;
       ssqdm_x := fadd (ssqdm_x w) (fmul (fsub vx mx) dx);
       ssqdm_y := fadd (ssqdm_y w) (fmul (fsub vy my) dy);
       covxy := fadd (covxy w) (fmul (fsub vx mx) dy) |}.

Definition nancorr (xs ys : list F) : F :=
  let w := fold_left welford_step (combine xs ys) welford_init in
  if (nobs w <? 1)%Z then fnan
  else
    let divisor := fsqrt (fmul (ssqdm_x w) (ssqdm_y w)) in
    if negb (feq divisor (of_Z 0)) then fdiv (covxy w) divisor else fnan.

Definition numeric_values (df : frame) : list (list F) :=
  flat_map (fun c => match snd c with
                     | Float64 xs => [xs]
                     | Object _ => []
                     end) (columns df).

(** Entry [(i, j)] of the matrix: each pair is computed once, for the larger
    position against the smaller, and mirrored. *)
Definition corr_entry (cols : list (list F)) (i j : nat) : F :=
  nancorr (nth (Nat.max i j) cols []) (nth (Nat.min i j) cols []).

Definition corr (df : frame) : list (list F) :=
  let cols := numeric_values df in
  let k := seq 0 (length cols) in
  map (fun i => map (fun j => corr_entry cols i j) k) k.

(** Lines 149-150 *)
Definition correlation_page (df : frame) : list (list F) :=
  let num_cols := select_dtypes_number df in
  corr num_cols.

(** ** Page 6: trend detection *)

(** The three messages of the page: [st.success] (increasing), [st.error]
    (decreasing), [st.info] (no clear trend). *)
Inductive verdict : Type :=
| Increasing
| Decreasing
| Flat.

Definition classify (d : F) : verdict :=
  if flt (of_Z 0) d then Increasing
  else if flt d (of_Z 0) then Decreasing
  else Flat.

(** Lines 168-175, for the column [col] picked in the select box. *)
Definition analyze_trend (df : frame) (col : option string) : result verdict :=
  (s <- getitem df col ;;
   d <- series_diff s ;;
   m <- series_mean d ;;
   Ok (classify m))%py.

Definition trend_page (df : frame) (choice : nat) : result verdict :=
  let numeric_cols := columns_tolist (select_dtypes_number df) in
  let col := selectbox numeric_cols choice in
  analyze_trend df col.

(** ** Page 7: clean and export *)

(** The five options of the radio button. *)
Inductive method : Type :=
| DropRowsWithNulls       (* "Drop rows with nulls" *)
| DropColumnsWithNulls    (* "Drop columns with nulls" *)
| FillWithMean            (* "Fill nulls with mean" *)
| FillWithMedian          (* "Fill nulls with median" *)
| FillWithZero.           (* "Fill nulls with 0" *)

(** For each row, whether some column is missing there. *)
Definition row_has_na (df : frame) : list bool :=
  fold_right (fun c acc => zip_with orb (isna (snd c)) acc)
             (repeat false (shape0 df)) (columns df).

(** [df.dropna()] *)
Definition dropna (df : frame) : frame :=
  frame_mask df (map negb (row_has_na df)).

Definition any_na (s : series) : bool := existsb (fun b => b) (isna s).

(** [df.dropna(axis=1)] *)
Definition dropna_columns (df : frame) : frame :=
  {| index := index df;
     columns := filter (fun c => negb (any_na (snd c))) (columns df) |}.

(** [df.mean()] and [df.median()]: one value per numeric column, under its
    name.  A column that is not numeric has no entry: the reduction skips it,
    as pandas does when it drops the columns it cannot reduce (the default
    before pandas 2.0, [numeric_only=True] since). *)
Definition reduce_numeric (f : list F -> F) (df : frame) : list (string * F) :=
  flat_map (fun c => match snd c with
                     | Float64 xs => [(fst c, f xs)]
                     | Object _ => []
                     end) (columns df).

Definition frame_mean (df : frame) : list (string * F) :=
  reduce_numeric nanmean df.

Definition frame_median (df : frame) : list (string * F) :=
  reduce_numeric nanmedian df.

Definition fill_values (v : F) (xs : list F) : list F :=
  map (fun x => if fisnan x then v else x) xs.

(** [df.fillna(values)] for a Series of per-column values: a column named in
    [values] has its missing entries replaced by the value under its name, any
    other column is left as it is.  The values come from [frame_mean] or
    [frame_median], which name numeric columns only. *)
Definition fillna_with (values : list (string * F)) (df : frame) : frame :=
  {| index := index df;
     columns :=
       map (fun c => match snd c, lookup (fst c) values with
                     | Float64 xs, Some v => (fst c, Float64 (fill_values v xs))
                     | _, _ => c
                     end) (columns df) |}.

(** [df.fillna(0)]: every missing entry becomes the number 0, in an object
    column the integer object 0. *)
Definition fillna_zero (df : frame) : frame :=
  {| index := index df;
     columns :=
       map (fun c => match snd c with
                     | Float64 xs => (fst c, Float64 (fill_values (of_Z 0) xs))
                     | Object xs =>
                         (fst c,
                          Object (map (fun o => match o with
                                                | None => Some (PyInt 0)
                                                | Some v => Some v
                                                end) xs))
                     end) (columns df) |}.

(** The table [df_clean] holds after the branch of lines 193-202 for
    [method], as a function of the table it held before. *)
Definition clean (df : frame) (m : method) : frame :=
  match m with
  | DropRowsWithNulls => dropna df
  | DropColumnsWithNulls => dropna_columns df
  | FillWithMean => fillna_with (frame_mean df) df
  | FillWithMedian => fillna_with (frame_median df) df
  | FillWithZero => fillna_zero df
  end.

(** *** The page, over the store of DataFrame objects

    A Python variable holds a reference to a DataFrame object.  [df.copy()],
    [dropna] and [fillna] each build a new object and return a reference to
    it; none of them writes to its receiver. *)

Definition ref : Type := nat.
Definition store : Type := list frame.

Definition empty_frame : frame := {| index := []; columns := [] |}.

Definition deref (st : store) (r : ref) : frame := nth r st empty_frame.

Definition new_object (x : frame) (st : store) : ref * store :=
  (length st, st ++ [x]).

(** [r.copy()] *)
Definition copy (r : ref) (st : store) : ref * store :=
  new_object (deref st r) st.

(** [r.dropna()], [r.dropna(axis=1)], [r.fillna(0)] *)
Definition call (op : frame -> frame) (r : ref) (st : store) : ref * store :=
  new_object (op (deref st r)) st.

(** [r.fillna(r.mean())] and [r.fillna(r.median())]: the argument is
    evaluated on the receiver first. *)
Definition call_fillna (stat : frame -> list (string * F)) (r : ref) (st : store)
  : ref * store :=
  let values := stat (deref st r) in
  new_object (fillna_with values (deref st r)) st.

(** Lines 190-202.  [df] is the reference held by the variable [df],
    [clicked] what [st.button("Apply Cleaning")] returned; the result is the
    reference held by [df_clean] at line 203, and the store. *)
Definition clean_page (df : ref) (m : method) (clicked : bool) (st : store)
  : ref * store :=
  let (df_clean, st1) := copy df st in
  if clicked then
    match m with
    | DropRowsWithNulls => call dropna df_clean st1
    | DropColumnsWithNulls => call dropna_columns df_clean st1
    | FillWithMean => call_fillna frame_mean df_clean st1
    | FillWithMedian => call_fillna frame_median df_clean st1
    | FillWithZero => call fillna_zero df_clean st1
    end
  else (df_clean, st1).

End Pandas.

Arguments series F : clear implicits.
Arguments frame F : clear implicits.
Arguments outlier_report F : clear implicits.
Arguments welford F : clear implicits.
Arguments store F : clear implicits.

(** * Tables and notions the statements use *)

(** ** Scenario tables

    [single_column name xs] is [pd.DataFrame({name: xs})]: one numeric column
    under the default index [0 .. n-1]. *)

Definition single_column {F : Type} (name : string) (xs : list F) : frame F :=
  {| index := seq 0 (length xs); columns := [(name, Float64 xs)] |}.

(** A table with a text column and a numeric column with a missing entry. *)
Definition people : frame float :=
  {| index := [0; 1; 2]%nat;
     columns :=
       [("name", Object [Some (PyStr "ann"); None; Some (PyStr "bob")]);
        ("v", Float64 [2; PrimFloat.nan; 4]%float)] |}.

(** A table with missing values, for the outlier mask. *)
Definition readings : frame float :=
  single_column "x" [1; 2; PrimFloat.nan; 3; 4; 100]%float.

(** A constant column of tenths, a varying column and a text column. *)
Definition tenths : frame float :=
  {| index := [0; 1; 2]%nat;
     columns :=
       [("a", Float64 [1 / 10; 1 / 10; 1 / 10]%float);
        ("b", Float64 [1; 2; 4]%float);
        ("t", Object [Some (PyStr "u"); None; Some (PyStr "w")])] |}.

(** A constant column, read as reals. *)
Definition ones : frame exact :=
  single_column "y" [Some 1%R; Some 1%R; Some 1%R; Some 1%R].

(** A table of reals with a constant column [a] beside a varying one. *)
Definition flat_and_slope : frame exact :=
  {| index := [0; 1; 2]%nat;
     columns :=
       [("a", Float64 [Some 7%R; None; Some 7%R]);
        ("b", Float64 [Some 1%R; Some 2%R; Some 4%R])] |}.

(** ** Exact arithmetic

    The notions below speak of a column of reals; they state the theorems
    and do not come from the program. *)

Section ExactNotions.

Local Open Scope R_scope.

(** The differences of a column of reals, and their sum. *)
Fixpoint rdiffs (prev : R) (rs : list R) : list R :=
  match rs with
  | [] => []
  | r :: tl => (r - prev) :: rdiffs r tl
  end.

Definition rsum (rs : list R) : R := fold_left Rplus rs 0.

(** The present values of a column, and the sum of their squared deviations
    from their mean: the variance of the column is this sum divided by the
    number of present values less one, and is zero when the sum is. *)
Definition present_values (xs : list exact) : list R :=
  flat_map (fun x => match x with Some r => [r] | None => [] end) xs.

Definition sum_sq_dev (rs : list R) : R :=
  let mu := rsum rs / INR (length rs) in
  rsum (map (fun r => (r - mu) * (r - mu)) rs).

(** The statistics of the first column stay at "mean [c], no spread" while
    its observations are all [c]. *)
Definition flat_x (c : R) (w : welford exact) : Prop :=
  ssqdm_x w = Some 0
  /\ ((nobs w = 0%Z /\ meanx w = Some 0)
      \/ ((1 <= nobs w)%Z /\ meanx w = Some c)).

Definition flat_y (c : R) (w : welford exact) : Prop :=
  ssqdm_y w = Some 0
  /\ ((nobs w = 0%Z /\ meany w = Some 0)
      \/ ((1 <= nobs w)%Z /\ meany w = Some c)).

End ExactNotions.

(** * The preview page (lines 48-57), and notions of the further statements *)

Section Preview.

Context {F : Type} {A : Arith F}.

(** [s.head(n)] *)
Definition series_head (n : nat) (s : series F) : series F :=
  match s with
  | Float64 xs => Float64 (firstn n xs)
  | Object xs => Object (firstn n xs)
  end.

(** [df.head()]: the first five rows, with their labels and all columns. *)
Definition frame_head (df : frame F) : frame F :=
  {| index := firstn 5 (index df);
     columns := map (fun c => (fst c, series_head 5 (snd c))) (columns df) |}.

(** The number of missing entries of a column. *)
Definition null_count (s : series F) : nat :=
  length (filter (fun b => b) (isna s)).

(** [df.isnull().sum()]: for each column, the number of its missing
    entries. *)
Definition isnull_sum (df : frame F) : list (string * nat) :=
  map (fun c => (fst c, null_count (snd c))) (columns df).

(** A table in which no entry is missing. *)
Definition complete (df : frame F) : bool :=
  forallb (fun c => negb (any_na (snd c))) (columns df).

End Preview.

(** [subseq l1 l2]: [l1] is [l2] with some entries left out, the others in
    their order. *)
Inductive subseq {X : Type} : list X -> list X -> Prop :=
| subseq_nil : subseq [] []
| subseq_skip (x : X) (l1 l2 : list X) : subseq l1 l2 -> subseq l1 (x :: l2)
| subseq_keep (x : X) (l1 l2 : list X) :
    subseq l1 l2 -> subseq (x :: l1) (x :: l2).

(** * Page 2: the counts of a text column (lines 66-71) *)

(** Equality of two cells of an object column. *)
Definition pyobj_eqb (a b : pyobj) : bool :=
  match a, b with
  | PyStr s, PyStr t => String.eqb s t
  | PyInt x, PyInt y => Z.eqb x y
  | _, _ => false
  end.

(** One more occurrence of [v] in a table of counts whose values stand in
    the order in which they were first seen. *)
Fixpoint count_value (v : pyobj) (acc : list (pyobj * nat))
  : list (pyobj * nat) :=
  match acc with
  | [] => [(v, 1)]
  | (u, k) :: tl =>
      if pyobj_eqb v u then (u, S k) :: tl else (u, k) :: count_value v tl
  end.

Definition tally (os : list (option pyobj)) : list (pyobj * nat) :=
  fold_left (fun acc o => match o with
                          | Some v => count_value v acc
                          | None => acc
                          end) os [].

Fixpoint insert_by_count (e : pyobj * nat) (l : list (pyobj * nat))
  : list (pyobj * nat) :=
  match l with
  | [] => [e]
  | f :: tl =>
      if Nat.leb (snd f) (snd e) then e :: l else f :: insert_by_count e tl
  end.

(** [s.value_counts()] on a text column: the distinct values that are
    present with the number of their occurrences, the most frequent first,
    values of equal count in the order in which they were first seen;
    missing entries are not counted. *)
Definition value_counts (os : list (option pyobj)) : list (pyobj * nat) :=
  fold_right insert_by_count [] (tally os).

(** The number of entries of a text column that hold the value [v], and the
    number of its entries that are present. *)
Definition occurrences (v : pyobj) (os : list (option pyobj)) : nat :=
  length (filter (fun o => match o with
                           | Some u => pyobj_eqb v u
                           | None => false
                           end) os).

Definition present_count (os : list (option pyobj)) : nat :=
  length (filter (fun o => match o with
                           | Some _ => true
                           | None => false
                           end) os).

(** The count a table of counts holds for [v], 0 when it has none. *)
Fixpoint get_count (v : pyobj) (acc : list (pyobj * nat)) : nat :=
  match acc with
  | [] => 0
  | (u, k) :: tl => if pyobj_eqb v u then k else get_count v tl
  end.

(** The table of counts after the entries [seen]. *)
Definition counted (seen : list (option pyobj)) (acc : list (pyobj * nat))
  : Prop :=
  NoDup (map fst acc)
  /\ Forall (fun e => 1 <= snd e) acc
  /\ (forall v, get_count v acc = occurrences v seen)
  /\ list_sum (map snd acc) = present_count seen.

(** ** Notions of the further statements, in exact arithmetic *)

Section ExactNotions2.

Local Open Scope R_scope.

(** The quantile of an ascending list of reals. *)
Definition rquantile (ss : list R) (num den : Z) : R :=
  let n := Z.of_nat (length ss) in
  let pos := ((n - 1) * num)%Z in
  let j := (pos / den)%Z in
  let g := IZR (pos mod den) / IZR den in
  let lo := nth (Z.to_nat j) ss 0 in
  let hi := nth (Z.to_nat (Z.min (j + 1) (n - 1))) ss 0 in
  lo + (hi - lo) * g.

(** The statistics of a column paired with itself, after the present
    values [seen]: both means agree, the three sums agree and are not
    negative, and they are zero only if all the values seen are equal. *)
Definition diag_state (seen : list R) (w : welford exact) : Prop :=
  exists m s : R,
    meanx w = Some m /\ meany w = Some m
    /\ ssqdm_x w = Some s /\ ssqdm_y w = Some s /\ covxy w = Some s
    /\ 0 <= s
    /\ nobs w = Z.of_nat (length seen)
    /\ (s = 0 -> Forall (eq m) seen).

(** The values [k * x] and [k * x + c], a missing value staying missing. *)
Definition scaled (k : R) (x : exact) : exact := lift2 Rmult (Some k) x.

Definition affine (k c : R) (x : exact) : exact :=
  lift2 Rplus (scaled k x) (Some c).

(** The verdict with Increasing and Decreasing exchanged. *)
Definition opposite (v : verdict) : verdict :=
  match v with
  | Increasing => Decreasing
  | Decreasing => Increasing
  | Flat => Flat
  end.

End ExactNotions2.

(** * Properties *)

(** ** The laws of NaN and of comparisons hold at both instances *)

Lemma SFcompare_swap (x y : spec_float) :
  SFcompare y x = option_map CompOpp (SFcompare x y).
Proof.
  destruct x as [sx|sx| |sx mx ex], y as [sy|sy| |sy my ey]; simpl;
    try reflexivity; try (destruct sx; reflexivity);
    try (destruct sy; reflexivity);
    try (destruct sx, sy; reflexivity).
  destruct sx, sy; try reflexivity;
    rewrite (Z.compare_antisym ey ex);
    destruct (ey ?= ex)%Z; simpl; try reflexivity;
    rewrite (Pos.compare_cont_antisym mx my Eq); simpl;
    rewrite ?CompOpp_involutive; reflexivity.
Qed.

Lemma SFcompare_nan_iff (x : spec_float) :
  SFeqb x x = false <-> x = S754_nan.
Proof.
  unfold SFeqb. split.
  - destruct x as [s|s| |s m e]; simpl; try discriminate; auto.
    + destruct s; discriminate.
    + destruct s; rewrite Z.compare_refl, Pos.compare_cont_refl;
        discriminate.
  - intros ->. reflexivity.
Qed.

Lemma is_nan_Prim2SF (x : float) :
  PrimFloat.is_nan x = true -> Prim2SF x = S754_nan.
Proof.
  unfold PrimFloat.is_nan. rewrite FloatAxioms.eqb_spec.
  intros H. apply SFcompare_nan_iff.
  destruct (SFeqb (Prim2SF x) (Prim2SF x)); [discriminate | reflexivity].
Qed.

Lemma Prim2SF_is_nan (x : float) :
  Prim2SF x = S754_nan -> PrimFloat.is_nan x = true.
Proof.
  intros H. unfold PrimFloat.is_nan. rewrite FloatAxioms.eqb_spec, H.
  reflexivity.
Qed.

#[export] Instance binary64_laws : ArithLaws float.
Proof.
  constructor; simpl.
  - intros x y H. rewrite FloatAxioms.ltb_spec, (is_nan_Prim2SF x H).
    reflexivity.
  - intros x y H. rewrite FloatAxioms.ltb_spec, (is_nan_Prim2SF y H).
    unfold SFltb. destruct (Prim2SF x); reflexivity.
  - intros x y. rewrite !FloatAxioms.ltb_spec. unfold SFltb.
    rewrite (SFcompare_swap (Prim2SF x) (Prim2SF y)).
    destruct (SFcompare (Prim2SF x) (Prim2SF y)) as [[ | | ]|];
      simpl; congruence.
  - intros x y. rewrite FloatAxioms.eqb_spec, !FloatAxioms.ltb_spec.
    unfold SFeqb, SFltb. rewrite (SFcompare_swap (Prim2SF x) (Prim2SF y)).
    destruct (SFcompare (Prim2SF x) (Prim2SF y)) as [[ | | ]|];
      simpl; auto; discriminate.
  - reflexivity.
  - intros x y H. apply Prim2SF_is_nan.
    rewrite FloatAxioms.sub_spec, (is_nan_Prim2SF x H). reflexivity.
  - intros x y H. apply Prim2SF_is_nan.
    rewrite FloatAxioms.sub_spec, (is_nan_Prim2SF y H).
    destruct (Prim2SF x); reflexivity.
Qed.

#[export] Instance exact_laws : ArithLaws exact.
Proof.
  constructor; simpl.
  - intros [a|] y H; [discriminate | reflexivity].
  - intros [a|] [b|] H; try discriminate; reflexivity.
  - intros [a|] [b|]; simpl; try discriminate.
    destruct (Rlt_dec a b), (Rlt_dec b a); try reflexivity; try discriminate.
    lra.
  - intros [a|] [b|]; simpl; try discriminate.
    destruct (Req_dec_T a b), (Rlt_dec a b), (Rlt_dec b a);
      try discriminate; auto; lra.
  - reflexivity.
  - intros [a|] y H; [discriminate | reflexivity].
  - intros [a|] [b|] H; try discriminate; reflexivity.
Qed.

(** ** Masks and boolean indexing *)

Section Masks.

Context {F : Type} {A : Arith F}.

Lemma zip_with_map {X Y W : Type} (f : Y -> Y -> W) (g h : X -> Y) (xs : list X) :
  zip_with f (map g xs) (map h xs) = map (fun x => f (g x) (h x)) xs.
Proof.
  induction xs as [|x xs IH]; simpl; [reflexivity | now rewrite IH].
Qed.

Lemma zip_with_length {X Y W : Type} (f : X -> Y -> W) (xs : list X) (ys : list Y) :
  length xs = length ys -> length (zip_with f xs ys) = length xs.
Proof.
  revert ys. induction xs as [|x xs IH]; intros [|y ys] H; simpl in *;
    try discriminate; auto.
Qed.

Lemma mask_filter_map {X Y : Type} (f : X -> Y) (m : list bool) (xs : list X) :
  mask_filter m (map f xs) = map f (mask_filter m xs).
Proof.
  revert xs. induction m as [|b m IH]; intros [|x xs]; simpl; auto.
  destruct b; simpl; now rewrite IH.
Qed.

Lemma mask_filter_length {X : Type} (m : list bool) (xs : list X) :
  length m = length xs ->
  length (mask_filter m xs) = length (filter (fun b => b) m).
Proof.
  revert xs. induction m as [|b m IH]; intros [|x xs] H; simpl in *;
    try discriminate; auto.
  destruct b; simpl; auto.
Qed.

Lemma mask_filter_zip_with {X : Type} (f : X -> X -> X) (m : list bool)
      (xs ys : list X) :
  length xs = length m -> length ys = length m ->
  zip_with f (mask_filter m xs) (mask_filter m ys)
  = mask_filter m (zip_with f xs ys).
Proof.
  revert xs ys.
  induction m as [|b m IH]; intros [|x xs] [|y ys] Hx Hy; simpl in *;
    try discriminate; auto.
  destruct b; simpl; rewrite IH; auto.
Qed.

Lemma mask_filter_repeat {X : Type} (m : list bool) (x : X) :
  mask_filter m (repeat x (length m))
  = repeat x (length (filter (fun b => b) m)).
Proof.
  induction m as [|b m IH]; simpl; auto.
  destruct b; simpl; now rewrite IH.
Qed.

(** A mask selects nothing it marks [False]: filtering the negated mask by
    itself leaves only [True]. *)
Lemma mask_filter_negb_self (m : list bool) :
  mask_filter (map negb m) m
  = repeat false (length (filter (fun b => b) (map negb m))).
Proof.
  induction m as [|b m IH]; simpl; auto.
  destruct b; simpl; now rewrite IH.
Qed.

Lemma mask_filter_all_true {X : Type} (n : nat) (xs : list X) :
  length xs = n -> mask_filter (repeat true n) xs = xs.
Proof.
  revert n. induction xs as [|x xs IH]; intros [|n] H; simpl in *;
    try discriminate; auto.
  now rewrite IH by lia.
Qed.

Lemma isna_series_mask (m : list bool) (s : series F) :
  isna (series_mask m s) = mask_filter m (isna s).
Proof.
  destruct s as [xs|xs]; simpl; now rewrite mask_filter_map.
Qed.

Lemma isna_length (s : series F) : length (isna s) = series_len s.
Proof.
  destruct s; simpl; apply length_map.
Qed.

Lemma series_mask_all_true (n : nat) (s : series F) :
  series_len s = n -> series_mask (repeat true n) s = s.
Proof.
  destruct s as [xs|xs]; simpl; intros H; now rewrite mask_filter_all_true.
Qed.

End Masks.

(** ** Columns of a well-formed table *)

Section Frames.

Context {F : Type} {A : Arith F}.

Lemma lookup_In {X : Type} (name : string) (l : list (string * X)) (x : X) :
  lookup name l = Some x -> In (name, x) l.
Proof.
  induction l as [|[n y] l IH]; simpl; [discriminate|].
  destruct (String.eqb name n) eqn:E.
  - intros [= ->]. apply String.eqb_eq in E. subst. now left.
  - intros H. right. auto.
Qed.

Lemma wf_frame_series_len (df : frame F) (name : string) (s : series F) :
  wf_frame df = true -> lookup name (columns df) = Some s ->
  series_len s = shape0 df.
Proof.
  unfold wf_frame. intros Hwf Hl.
  apply andb_prop in Hwf as [Hlen _].
  rewrite forallb_forall in Hlen.
  apply lookup_In in Hl. apply Hlen in Hl. now apply Nat.eqb_eq in Hl.
Qed.

Lemma nodup_names_lookup {X : Type} (l : list (string * X)) (c : string * X) :
  nodup_names (map fst l) = true -> In c l -> lookup (fst c) l = Some (snd c).
Proof.
  induction l as [|[n y] l IH]; simpl; [intros _ []|].
  intros Hnd Hin. apply andb_prop in Hnd as [Hfresh Hnd].
  destruct Hin as [<- | Hin]; simpl.
  - now rewrite String.eqb_refl.
  - destruct (String.eqb (fst c) n) eqn:E; [| now apply IH].
    apply String.eqb_eq in E. subst n.
    apply negb_true_iff in Hfresh.
    assert (Hex : existsb (String.eqb (fst c)) (map fst l) = true).
    { apply existsb_exists. exists (fst c). split.
      - now apply in_map.
      - apply String.eqb_refl. }
    congruence.
Qed.

End Frames.

(** ** Outlier detection *)

Section Outliers.

Context {F : Type} {A : Arith F}.

(** The report of [detect] on a numeric column, written out. *)
Lemma detect_numeric (df : frame F) (name : string) (xs : list F) :
  lookup name (columns df) = Some (Float64 xs) ->
  detect df (Some name)
  = let q1 := quantile_values xs 1 4 in
    let q3 := quantile_values xs 3 4 in
    let lo := fsub q1 (fmul one_and_half (fsub q3 q1)) in
    let hi := fadd q3 (fmul one_and_half (fsub q3 q1)) in
    let out := frame_mask df (map (fun x => flt x lo || flt hi x) xs) in
    Ok {| Q1 := q1; Q3 := q3; IQR := fsub q3 q1; lower := lo; upper := hi;
          outliers := out; total := shape0 out |}.
Proof.
  intros Hl. unfold detect. simpl. rewrite Hl. simpl.
  now rewrite zip_with_map.
Qed.

Context {L : ArithLaws F}.

(** C3.  On every well-formed table and every numeric column, detection
    succeeds and its outlier subset is the table filtered by a mask with one
    entry per row, where the entry of a row is [True] exactly when the value
    of the row is present and strictly below [lower] or strictly above
    [upper]; the row of a missing value is never selected; the reported count
    is the number of rows of the subset, which is the number of selected
    rows. *)
Theorem outlier_rows_iff (df : frame F) (name : string) (xs : list F) :
  wf_frame df = true ->
  lookup name (columns df) = Some (Float64 xs) ->
  exists (rep : outlier_report F) (mask : list bool),
    detect df (Some name) = Ok rep
    /\ outliers rep = frame_mask df mask
    /\ length mask = shape0 df
    /\ (forall i x, nth_error xs i = Some x ->
          (nth_error mask i = Some true
           <-> fisnan x = false
               /\ (flt x (lower rep) = true \/ flt (upper rep) x = true)))
    /\ (forall i x, nth_error xs i = Some x -> fisnan x = true ->
          nth_error mask i = Some false)
    /\ total rep = shape0 (outliers rep)
    /\ total rep = length (filter (fun b => b) mask).
Proof.
  intros Hwf Hl.
  pose proof (wf_frame_series_len df name Hwf Hl) as Hlen. simpl in Hlen.
  rewrite (detect_numeric df name Hl). cbv zeta.
  set (lo := fsub (quantile_values xs 1 4) _). set (hi := fadd _ _).
  eexists. exists (map (fun x => flt x lo || flt hi x) xs).
  split; [reflexivity|]. simpl.
  split; [reflexivity|].
  split; [now rewrite length_map|].
  assert (Hnth : forall i x, nth_error xs i = Some x ->
            nth_error (map (fun x => flt x lo || flt hi x) xs) i
            = Some (flt x lo || flt hi x)).
  { intros i x Hx. rewrite nth_error_map, Hx. reflexivity. }
  split; [|split; [|split]].
  - intros i x Hx. rewrite (Hnth i x Hx). split.
    + intros [= Hb]. apply orb_true_iff in Hb. split; [|exact Hb].
      destruct (fisnan x) eqn:En; [|reflexivity].
      destruct Hb as [Hb | Hb].
      * now rewrite (flt_nan_l x lo En) in Hb.
      * now rewrite (flt_nan_r hi x En) in Hb.
    + intros [_ Hb]. f_equal. now apply orb_true_iff.
  - intros i x Hx En. rewrite (Hnth i x Hx).
    now rewrite (flt_nan_l x lo En), (flt_nan_r hi x En).
  - reflexivity.
  - unfold shape0 at 1. simpl. apply mask_filter_length.
    rewrite length_map. exact Hlen.
Qed.

End Outliers.

(** ** Quartiles of a constant column, in exact arithmetic *)

Section ExactQuantile.

Local Open Scope R_scope.

Lemma insert_sorted_Forall {F : Type} {A : Arith F} (P : F -> Prop) (x : F)
      (l : list F) :
  P x -> Forall P l -> Forall P (insert_sorted x l).
Proof.
  intros Hx Hl. induction Hl as [|y l Hy Hl IH]; simpl.
  - now constructor.
  - destruct (flt y x); constructor; auto.
Qed.

Lemma insert_sorted_length {F : Type} {A : Arith F} (x : F) (l : list F) :
  length (insert_sorted x l) = S (length l).
Proof.
  induction l as [|y l IH]; simpl; [reflexivity|].
  destruct (flt y x); simpl; auto.
Qed.

Lemma sort_values_Forall {F : Type} {A : Arith F} (P : F -> Prop) (l : list F) :
  Forall P l -> Forall P (sort_values l).
Proof.
  induction 1 as [|x l Hx Hl IH]; simpl; [constructor|].
  now apply insert_sorted_Forall.
Qed.

Lemma sort_values_length {F : Type} {A : Arith F} (l : list F) :
  length (sort_values l) = length l.
Proof.
  induction l as [|x l IH]; simpl; [reflexivity|].
  now rewrite insert_sorted_length, IH.
Qed.

Lemma Forall_nth_const {X : Type} (c d : X) (l : list X) (k : nat) :
  Forall (eq c) l -> (k < length l)%nat -> nth k l d = c.
Proof.
  intros Hl. revert k.
  induction Hl as [|y l Hy Hl IH]; intros [|k] Hk; simpl in *; try lia; auto.
  apply IH. lia.
Qed.

(** The present values of a column all of whose present values are [c]. *)
Lemma notna_values_const (c : R) (xs : list exact) :
  Forall (fun x => x = None \/ x = Some c) xs ->
  Forall (eq (Some c)) (notna_values xs).
Proof.
  induction 1 as [|x xs [-> | ->] Hxs IH]; simpl; auto.
Qed.

Lemma notna_values_nonempty (c : R) (xs : list exact) :
  In (Some c) xs -> (0 < length (notna_values xs))%nat.
Proof.
  induction xs as [|x xs IH]; simpl; [intros []|].
  intros [-> | Hin]; simpl; [lia|].
  destruct x; simpl; auto; lia.
Qed.

(** Every quantile of a column whose present values are all [c] is [c]. *)
Lemma quantile_values_const (c : R) (xs : list exact) (num den : Z) :
  (0 <= num <= den)%Z -> (0 < den)%Z ->
  Forall (fun x => x = None \/ x = Some c) xs ->
  In (Some c) xs ->
  quantile_values xs num den = Some c.
Proof.
  intros Hq Hden Hall Hin. unfold quantile_values.
  pose proof (sort_values_Forall (notna_values_const Hall)) as Hs.
  pose proof (notna_values_nonempty c xs Hin) as Hne.
  rewrite <- (sort_values_length (notna_values xs)) in Hne.
  set (v := sort_values (notna_values xs)) in *.
  set (n := Z.of_nat (length v)).
  assert (Hn : (0 < n)%Z) by (unfold n; lia).
  destruct (n =? 0)%Z eqn:E; [apply Z.eqb_eq in E; lia|].
  set (pos := ((n - 1) * num)%Z).
  assert (Hj : (0 <= pos / den <= n - 1)%Z).
  { split.
    - apply Z.div_pos; [unfold pos; nia | lia].
    - apply Z.div_le_upper_bound; [lia | unfold pos; nia]. }
  rewrite (@Forall_nth_const exact (Some c) fnan v (Z.to_nat (pos / den)) Hs)
    by (unfold n in Hj; lia).
  rewrite (@Forall_nth_const exact (Some c) fnan v
             (Z.to_nat (Z.min (pos / den + 1) (n - 1))) Hs)
    by (unfold n in Hj; lia).
  simpl. f_equal. unfold Rdiv. ring.
Qed.

End ExactQuantile.

Section ExactOutliers.

Local Open Scope R_scope.

Lemma mask_filter_all_false {X : Type} (m : list bool) (xs : list X) :
  Forall (eq false) m -> mask_filter m xs = [].
Proof.
  intros Hm. revert xs.
  induction Hm as [|b m <- Hm IH]; intros [|x xs]; simpl; auto.
Qed.

Lemma exact_lt_irrefl (x : exact) : exact_lt x x = false.
Proof.
  destruct x as [a|]; simpl; [|reflexivity].
  destruct (Rlt_dec a a); [lra | reflexivity].
Qed.

(** With [IQR = 0] both bounds are [Q1], and a present value is selected
    exactly when it differs from [Q1]. *)
Lemma iqr_zero_bounds (q1 q3 : exact) :
  fsub q3 q1 = Some 0 ->
  fsub q1 (fmul one_and_half (fsub q3 q1)) = q1
  /\ fadd q3 (fmul one_and_half (fsub q3 q1)) = q1.
Proof.
  destruct q1 as [a|], q3 as [b|]; simpl; try discriminate.
  intros [= H]. split; f_equal; lra.
Qed.

Lemma exact_strictly_outside (q x : exact) :
  fisnan q = false ->
  flt x q || flt q x = true <-> fisnan x = false /\ x <> q.
Proof.
  destruct q as [a|]; [intros _ | discriminate].
  destruct x as [r|]; simpl.
  - destruct (Rlt_dec r a), (Rlt_dec a r); simpl; split; auto;
      try (intros _; split; [reflexivity | intros [= ->]; lra]).
    + intros [=].
    + intros [_ H]. exfalso. apply H. f_equal. lra.
  - split; [discriminate | intros [[=] _]].
Qed.

End ExactOutliers.


(** ** The scenario of the outlier page, in exact arithmetic *)

Section ExactScenario.

Local Open Scope R_scope.

(** Inserting below the head of a list puts the value in front. *)
Lemma insert_sorted_head (x y : R) (l : list exact) :
  ~ y < x -> insert_sorted (Some x) (Some y :: l) = Some x :: Some y :: l.
Proof.
  intros H. simpl. destruct (Rlt_dec y x); [contradiction | reflexivity].
Qed.

(** The scenario of C2 with the column read as reals. *)
Lemma exact_outliers_of_1_2_3_4_100 :
  exists rep : outlier_report exact,
    outlier_page
      (single_column "x" [Some 1; Some 2; Some 3; Some 4; Some 100]) 0
    = Ok rep
    /\ Q1 rep = Some 2 /\ Q3 rep = Some 4 /\ IQR rep = Some 2
    /\ lower rep = Some (-1) /\ upper rep = Some 7
    /\ outliers rep
       = {| index := [4%nat]; columns := [("x", Float64 [Some 100])] |}
    /\ total rep = 1%nat.
Proof.
  unfold outlier_page. simpl selectbox.
  set (xs := [Some 1; Some 2; Some 3; Some 4; Some 100] : list exact).
  rewrite (@detect_numeric exact _ (single_column "x" xs) "x" xs eq_refl).
  cbv zeta.
  assert (Hs : sort_values (notna_values xs) = xs).
  { unfold sort_values, xs.
    cbn [notna_values filter fisnan exact_arith exact_isnan negb fold_right].
    change (insert_sorted (Some 100) []) with [Some 100 : exact].
    rewrite !insert_sorted_head by lra. reflexivity. }
  assert (H1 : quantile_values xs 1 4 = Some 2).
  { unfold quantile_values. rewrite Hs. unfold xs. simpl.
    change (4 mod 4)%Z with 0%Z. f_equal. field. }
  assert (H3 : quantile_values xs 3 4 = Some 4).
  { unfold quantile_values. rewrite Hs. unfold xs. simpl.
    change (12 mod 4)%Z with 0%Z. f_equal. field. }
  rewrite H1, H3.
  eexists. split; [reflexivity|]. cbn [Q1 Q3 IQR lower upper outliers total].
  split; [reflexivity|]. split; [reflexivity|].
  split; [simpl; f_equal; lra|].
  split; [simpl; f_equal; lra|].
  split; [simpl; f_equal; lra|].
  match goal with
  | |- context [map ?f xs] =>
      assert (Hm : map f xs = [false; false; false; false; true])
  end.
  { unfold xs. simpl.
    repeat match goal with
           | |- context [Rlt_dec ?a ?b] =>
               destruct (Rlt_dec a b); [try (exfalso; lra) | try (exfalso; lra)]
           end.
    reflexivity. }
  rewrite Hm. split; reflexivity.
Qed.
End ExactScenario.

(** C2.  On the table with the one column [x = [1, 2, 3, 4, 100]], in
    binary64 and in exact arithmetic alike, the select box offers the column
    [x] and the page computes [Q1 = 2], [Q3 = 4], [IQR = 2], [lower = -1],
    [upper = 7] and reports one outlier row, the row of label 4 with the
    value 100. *)
Theorem outliers_of_1_2_3_4_100 :
  (let df := single_column "x" [1; 2; 3; 4; 100]%float in
   columns_tolist (select_dtypes_number df) = ["x"]
   /\ outlier_page df 0
      = Ok {| Q1 := 2%float; Q3 := 4%float; IQR := 2%float;
              lower := (-1)%float; upper := 7%float;
              outliers := {| index := [4%nat];
                             columns := [("x", Float64 [100%float])] |};
              total := 1 |})
  /\ (exists rep : outlier_report exact,
        outlier_page
          (single_column "x"
             [Some 1%R; Some 2%R; Some 3%R; Some 4%R; Some 100%R]) 0
        = Ok rep
        /\ Q1 rep = Some 2%R /\ Q3 rep = Some 4%R /\ IQR rep = Some 2%R
        /\ lower rep = Some (-1)%R /\ upper rep = Some 7%R
        /\ outliers rep
           = {| index := [4%nat];
                columns := [("x", Float64 [Some 100%R])] |}
        /\ total rep = 1%nat).
Proof.
  split; [split|].
  - reflexivity.
  - vm_compute. reflexivity.
  - exact exact_outliers_of_1_2_3_4_100.
Qed.

(** ** Trend detection *)

Section Trend.

Context {F : Type} {A : Arith F}.

Lemma diffs_length (prev : F) (xs : list F) :
  length (diffs prev xs) = length xs.
Proof.
  revert prev. induction xs as [|x xs IH]; intros prev; simpl; auto.
Qed.

Lemma diff_values_length (xs : list F) :
  length (diff_values xs) = length xs.
Proof.
  destruct xs as [|x xs]; simpl; [reflexivity|]. now rewrite diffs_length.
Qed.

Lemma diffs_nth_error (prev : F) (xs : list F) (i : nat) (a b : F) :
  nth_error (prev :: xs) i = Some a ->
  nth_error (prev :: xs) (S i) = Some b ->
  nth_error (diffs prev xs) i = Some (fsub b a).
Proof.
  revert prev i. induction xs as [|x xs IH]; intros prev i Ha Hb.
  - simpl in Hb. destruct i; discriminate.
  - destruct i as [|i]; simpl in *.
    + congruence.
    + now apply IH.
Qed.

(** Entry [i+1] of [diff] is [x[i+1] - x[i]]. *)
Lemma diff_values_nth_error (xs : list F) (i : nat) (a b : F) :
  nth_error xs i = Some a ->
  nth_error xs (S i) = Some b ->
  nth_error (diff_values xs) (S i) = Some (fsub b a).
Proof.
  destruct xs as [|x xs]; [destruct i; discriminate|].
  intros Ha Hb. simpl. now apply diffs_nth_error.
Qed.

Lemma analyze_trend_numeric (df : frame F) (name : string) (xs : list F) :
  lookup name (columns df) = Some (Float64 xs) ->
  analyze_trend df (Some name) = Ok (classify (nanmean (diff_values xs))).
Proof.
  intros Hl. unfold analyze_trend. simpl. now rewrite Hl.
Qed.

Lemma notna_values_In (xs : list F) (x : F) :
  In x (notna_values xs) <-> In x xs /\ fisnan x = false.
Proof.
  unfold notna_values. rewrite filter_In, negb_true_iff. reflexivity.
Qed.

Context {L : ArithLaws F}.

Lemma classify_cases (m : F) :
  (classify m = Increasing <-> flt (of_Z 0) m = true)
  /\ (classify m = Decreasing <-> flt m (of_Z 0) = true)
  /\ (classify m = Flat <-> flt (of_Z 0) m = false /\ flt m (of_Z 0) = false).
Proof.
  unfold classify.
  destruct (flt (of_Z 0) m) eqn:Ep.
  - rewrite (flt_asym _ _ Ep).
    repeat split; intros; try discriminate; intuition discriminate.
  - destruct (flt m (of_Z 0)) eqn:En;
      repeat split; intros; try discriminate; intuition discriminate.
Qed.

Lemma classify_nan (m : F) : fisnan m = true -> classify m = Flat.
Proof.
  intros H. unfold classify.
  now rewrite (flt_nan_r (of_Z 0) m H), (flt_nan_l m (of_Z 0) H).
Qed.

Lemma classify_zero (m : F) : feq m (of_Z 0) = true -> classify m = Flat.
Proof.
  intros H. destruct (feq_not_lt _ _ H) as [H1 H2].
  unfold classify. now rewrite H2, H1.
Qed.

End Trend.


(** ** The mean of the differences, in exact arithmetic *)

Section ExactTrend.

Local Open Scope R_scope.

Lemma diffs_exact (p : R) (rs : list R) :
  diffs (Some p) (map Some rs) = map Some (rdiffs p rs).
Proof.
  revert p. induction rs as [|r rs IH]; intros p; simpl; [reflexivity|].
  now rewrite IH.
Qed.

Lemma rdiffs_length (p : R) (rs : list R) : length (rdiffs p rs) = length rs.
Proof.
  revert p. induction rs as [|r rs IH]; intros p; simpl; auto.
Qed.

Lemma notna_values_map_Some (ds : list R) :
  notna_values (map Some ds) = map Some ds.
Proof.
  induction ds as [|d ds IH]; simpl; [reflexivity | now rewrite IH].
Qed.

Lemma fold_fadd_map_Some (ds : list R) (acc : R) :
  fold_left fadd (map Some ds) (Some acc) = Some (fold_left Rplus ds acc).
Proof.
  revert acc. induction ds as [|d ds IH]; intros acc; simpl; [reflexivity|].
  apply IH.
Qed.

Lemma last_cons_default {X : Type} (x d : X) (l : list X) :
  List.last (x :: l) d = List.last l x.
Proof.
  revert x d. induction l as [|y l IH]; intros x d; [reflexivity|].
  change (List.last (y :: l) d = List.last (y :: l) x).
  now rewrite !IH.
Qed.

(** The differences telescope. *)
Lemma fold_rdiffs (p : R) (rs : list R) (acc : R) :
  fold_left Rplus (rdiffs p rs) acc = acc + (List.last rs p - p).
Proof.
  revert p acc. induction rs as [|r rs IH]; intros p acc.
  - simpl. ring.
  - simpl rdiffs. simpl fold_left. rewrite IH, last_cons_default. ring.
Qed.

Lemma all_present (xs : list exact) :
  Forall (fun x => fisnan x = false) xs -> exists rs, xs = map Some rs.
Proof.
  induction 1 as [|x xs Hx Hxs [rs ->]].
  - now exists [].
  - destruct x as [r|]; [|discriminate]. now exists (r :: rs).
Qed.

Lemma nanmean_diff_exact (a : R) (rs : list R) :
  rs <> [] ->
  nanmean (diff_values (map Some (a :: rs)))
  = Some ((List.last rs a - a) / IZR (Z.of_nat (length rs))).
Proof.
  intros Hne. simpl map. unfold diff_values. rewrite diffs_exact.
  unfold nanmean.
  change (notna_values (fnan :: map Some (rdiffs a rs)))
    with (notna_values (map Some (rdiffs a rs))).
  rewrite notna_values_map_Some, length_map, rdiffs_length.
  destruct rs as [|r rs]; [contradiction|].
  change (length (r :: rs) =? 0)%nat with false. cbv iota.
  unfold fsum. change (of_Z 0) with (Some 0 : exact).
  rewrite fold_fadd_map_Some, fold_rdiffs. simpl. f_equal. f_equal. ring.
Qed.

Lemma sign_of_quotient (d k : R) :
  0 < k -> (0 < d / k <-> 0 < d) /\ (d / k < 0 <-> d < 0).
Proof.
  intros Hk. assert (Hi : 0 < / k) by now apply Rinv_0_lt_compat.
  unfold Rdiv. split; split; intros H; nra.
Qed.

Lemma classify_exact (q : R) :
  (classify (Some q) = Increasing <-> 0 < q)
  /\ (classify (Some q) = Decreasing <-> q < 0)
  /\ (classify (Some q) = Flat <-> q = 0).
Proof.
  unfold classify. simpl.
  destruct (Rlt_dec 0 q), (Rlt_dec q 0);
    repeat split; intros; try discriminate; try lra; auto.
Qed.

End ExactTrend.

Lemma last_map_Some {X : Type} (l : list X) (d : X) :
  List.last (map Some l) (Some d) = Some (List.last l d).
Proof.
  induction l as [|x l IH]; [reflexivity|].
  destruct l as [|y l]; [reflexivity|]. exact IH.
Qed.




(** ** Cleaning *)

Section Cleaning.

Context {F : Type} {A : Arith F}.

Lemma reduce_numeric_lookup (f : list F -> F) (cols : list (string * series F))
      (name : string) (xs : list F) :
  nodup_names (map fst cols) = true ->
  In (name, Float64 xs) cols ->
  lookup name
    (flat_map (fun c => match snd c with
                        | Float64 ys => [(fst c, f ys)]
                        | Object _ => []
                        end) cols)
  = Some (f xs).
Proof.
  induction cols as [|[n s] cols IH]; simpl; [intros _ []|].
  intros Hnd Hin. apply andb_prop in Hnd as [Hfresh Hnd].
  destruct Hin as [[= -> ->] | Hin].
  - simpl. now rewrite String.eqb_refl.
  - assert (Hneq : String.eqb name n = false).
    { destruct (String.eqb name n) eqn:E; [|reflexivity].
      apply String.eqb_eq in E. subst n.
      apply negb_true_iff in Hfresh.
      assert (Hex : existsb (String.eqb name) (map fst cols) = true).
      { apply existsb_exists. exists name. split.
        - change name with (fst (name, Float64 xs)). now apply in_map.
        - apply String.eqb_refl. }
      congruence. }
    destruct s as [ys|os]; simpl; [rewrite Hneq|]; now apply IH.
Qed.

(** [fillna] with the per-column statistic [f]: each numeric column has its
    missing entries replaced by [f] of that column, every other column is
    kept. *)
Lemma fillna_with_reduce (f : list F -> F) (df : frame F) :
  wf_frame df = true ->
  fillna_with (reduce_numeric f df) df
  = {| index := index df;
       columns :=
         map (fun c => match snd c with
                       | Float64 xs => (fst c, Float64 (fill_values (f xs) xs))
                       | Object _ => c
                       end) (columns df) |}.
Proof.
  intros Hwf. apply andb_prop in Hwf as [_ Hnd].
  unfold fillna_with. f_equal. apply map_ext_in.
  intros [n s] Hin. destruct s as [xs|os]; simpl; [|reflexivity].
  unfold reduce_numeric.
  now rewrite (reduce_numeric_lookup f (columns df) n xs Hnd Hin).
Qed.

Lemma row_has_na_length (n : nat) (cols : list (string * series F)) :
  Forall (fun c => series_len (snd c) = n) cols ->
  length (fold_right (fun c acc => zip_with orb (isna (snd c)) acc)
                     (repeat false n) cols) = n.
Proof.
  induction 1 as [|c cols Hc Hcols IH]; simpl.
  - apply repeat_length.
  - rewrite zip_with_length; rewrite isna_length; congruence.
Qed.

(** Filtering the rows of a table filters its row-wise missing mask. *)
Lemma row_has_na_mask (m : list bool) (cols : list (string * series F)) :
  Forall (fun c => series_len (snd c) = length m) cols ->
  fold_right (fun c acc => zip_with orb (isna (snd c)) acc)
             (repeat false (length (filter (fun b => b) m)))
             (map (fun c => (fst c, series_mask m (snd c))) cols)
  = mask_filter m
      (fold_right (fun c acc => zip_with orb (isna (snd c)) acc)
                  (repeat false (length m)) cols).
Proof.
  induction 1 as [|c cols Hc Hcols IH]; simpl.
  - symmetry. apply mask_filter_repeat.
  - rewrite IH, isna_series_mask. apply mask_filter_zip_with.
    + now rewrite isna_length.
    + now apply row_has_na_length.
Qed.

Lemma series_mask_len (m : list bool) (s : series F) :
  series_len s = length m ->
  series_len (series_mask m s) = length (filter (fun b => b) m).
Proof.
  destruct s as [xs|xs]; simpl; intros H; now apply mask_filter_length.
Qed.

Lemma wf_frame_columns (df : frame F) :
  wf_frame df = true ->
  Forall (fun c => series_len (snd c) = shape0 df) (columns df).
Proof.
  intros Hwf. apply andb_prop in Hwf as [Hlen _].
  rewrite forallb_forall in Hlen. apply Forall_forall.
  intros c Hin. apply Nat.eqb_eq. now apply Hlen.
Qed.

(** [dropna] leaves no row with a missing value, so a second [dropna] keeps
    every row. *)
Lemma dropna_idempotent (df : frame F) :
  wf_frame df = true -> dropna (dropna df) = dropna df.
Proof.
  intros Hwf. pose proof (wf_frame_columns df Hwf) as Hcols.
  unfold dropna at 1.
  set (r := row_has_na df). set (m := map negb r).
  assert (Hr : length r = shape0 df) by now apply row_has_na_length.
  assert (Hm : length m = shape0 df) by (unfold m; now rewrite length_map).
  set (k := length (filter (fun b => b) m)).
  assert (Hidx : length (mask_filter m (index df)) = k)
    by (apply mask_filter_length; exact Hm).
  assert (Hrow : row_has_na (dropna df) = repeat false k).
  { unfold row_has_na, dropna. fold r. fold m. unfold shape0 at 1. simpl.
    rewrite Hidx. unfold k. rewrite row_has_na_mask.
    - rewrite Hm. fold (row_has_na df). fold r. unfold m.
      apply mask_filter_negb_self.
    - rewrite Hm. exact Hcols. }
  rewrite Hrow.
  assert (Ht : map negb (repeat false k) = repeat true k)
    by (clear; induction k; simpl; congruence).
  rewrite Ht. unfold dropna. fold r. fold m. unfold frame_mask. simpl.
  f_equal.
  - apply mask_filter_all_true. exact Hidx.
  - rewrite map_map. apply map_ext_in. intros [n s] Hin. simpl. f_equal.
    apply series_mask_all_true. apply series_mask_len.
    rewrite Forall_forall in Hcols. rewrite Hm. exact (Hcols _ Hin).
Qed.

Lemma filter_idempotent {X : Type} (p : X -> bool) (l : list X) :
  filter p (filter p l) = filter p l.
Proof.
  induction l as [|x l IH]; simpl; [reflexivity|].
  destruct (p x) eqn:E; simpl; [rewrite E|]; congruence.
Qed.

Lemma dropna_columns_idempotent (df : frame F) :
  dropna_columns (dropna_columns df) = dropna_columns df.
Proof.
  unfold dropna_columns. simpl. f_equal. apply filter_idempotent.
Qed.

End Cleaning.


(** C7.  On every well-formed table, dropping the rows with nulls twice is
    dropping them once, and so is dropping the columns with nulls. *)
Theorem clean_drop_idempotent (F : Type) (A : Arith F) (df : frame F)
        (m : method) :
  wf_frame df = true ->
  m = DropRowsWithNulls \/ m = DropColumnsWithNulls ->
  clean (clean df m) m = clean df m.
Proof.
  intros Hwf [-> | ->]; simpl.
  - now apply dropna_idempotent.
  - apply dropna_columns_idempotent.
Qed.

(** Idempotence of dropping rows, on the table [people]. *)
Lemma clean_drop_idempotent_witness :
  clean (clean people DropRowsWithNulls) DropRowsWithNulls
  = clean people DropRowsWithNulls.
Proof.
  apply (@clean_drop_idempotent float binary64 people DropRowsWithNulls).
  - reflexivity.
  - left. reflexivity.
Defined.

(** ** The cleaning page and the store *)

Section Store.

Context {F : Type} {A : Arith F}.

Lemma deref_new_old (st : store F) (x : frame F) (r : ref) :
  r < length st -> deref (snd (new_object x st)) r = deref st r.
Proof.
  intros Hr. unfold deref, new_object. simpl. now apply app_nth1.
Qed.

Lemma deref_new_fresh (st : store F) (x : frame F) :
  deref (snd (new_object x st)) (fst (new_object x st)) = x.
Proof.
  unfold deref, new_object. simpl. apply nth_middle.
Qed.

Lemma new_object_length (st : store F) (x : frame F) :
  length (snd (new_object x st)) = S (length st)
  /\ fst (new_object x st) = length st.
Proof.
  unfold new_object. simpl. rewrite length_app. simpl. lia.
Qed.

End Store.



(** ** The columns the outlier page can be applied to *)

Section Selection.

Context {F : Type} {A : Arith F}.

Lemma selected_is_numeric (df : frame F) (choice : nat) (name : string) :
  wf_frame df = true ->
  selectbox (columns_tolist (select_dtypes_number df)) choice = Some name ->
  exists xs, lookup name (columns df) = Some (Float64 xs).
Proof.
  intros Hwf Hsel. apply andb_prop in Hwf as [_ Hnd].
  unfold selectbox in Hsel. apply nth_error_In in Hsel.
  unfold columns_tolist, select_dtypes_number in Hsel. simpl in Hsel.
  apply in_map_iff in Hsel as ([n s] & <- & Hin).
  apply filter_In in Hin as [Hin Hnum].
  destruct s as [xs|os]; [|discriminate].
  exists xs. exact (nodup_names_lookup (columns df) (n, Float64 xs) Hnd Hin).
Qed.

Lemma detect_object (df : frame F) (name : string) (os : list (option pyobj)) :
  lookup name (columns df) = Some (Object os) ->
  detect df (Some name) = Raise TypeError.
Proof.
  intros Hl. unfold detect. simpl. now rewrite Hl.
Qed.

Lemma detect_raises (df : frame F) (col : option string) (e : string) :
  detect df col = Raise e -> e = KeyError \/ e = TypeError.
Proof.
  unfold detect. destruct col as [name|]; simpl.
  - destruct (lookup name (columns df)) as [[xs|os]|]; simpl.
    + discriminate.
    + intros [= <-]. now right.
    + intros [= <-]. now left.
  - intros [= <-]. now left.
Qed.

End Selection.



(** The outlier mask theorem on the table [readings], in binary64. *)
Lemma outlier_rows_iff_witness :
  exists (rep : outlier_report float) (mask : list bool),
    detect readings (Some "x") = Ok rep
    /\ outliers rep = frame_mask readings mask
    /\ length mask = shape0 readings
    /\ (forall i x,
          nth_error [1; 2; PrimFloat.nan; 3; 4; 100]%float i = Some x ->
          (nth_error mask i = Some true
           <-> fisnan x = false
               /\ (flt x (lower rep) = true \/ flt (upper rep) x = true)))
    /\ (forall i x,
          nth_error [1; 2; PrimFloat.nan; 3; 4; 100]%float i = Some x ->
          fisnan x = true -> nth_error mask i = Some false)
    /\ total rep = shape0 (outliers rep)
    /\ total rep = length (filter (fun b => b) mask).
Proof.
  apply (@outlier_rows_iff float binary64 binary64_laws readings "x"
           [1; 2; PrimFloat.nan; 3; 4; 100]%float).
  - reflexivity.
  - reflexivity.
Defined.

(** ** Correlation with a column of zero variance, in exact arithmetic *)

Section ExactCorrelation.

Local Open Scope R_scope.

Lemma fold_squares_zero (mu : R) (rs : list R) (acc : R) :
  0 <= acc ->
  fold_left Rplus (map (fun r => (r - mu) * (r - mu)) rs) acc = 0 ->
  acc = 0 /\ Forall (fun r => r = mu) rs.
Proof.
  revert acc. induction rs as [|r rs IH]; intros acc Hacc H; simpl in H.
  - now split.
  - assert (Hsq : 0 <= (r - mu) * (r - mu)) by apply Rle_0_sqr.
    assert (Hacc' : 0 <= acc + (r - mu) * (r - mu)) by lra.
    destruct (IH _ Hacc' H) as [H0 Hall].
    split; [lra|]. constructor; [|exact Hall].
    assert (Hz : (r - mu) * (r - mu) = 0) by lra.
    apply Rmult_integral in Hz. lra.
Qed.

(** A column of zero variance is constant on its present values. *)
Lemma zero_variance_constant (xs : list exact) :
  sum_sq_dev (present_values xs) = 0 ->
  exists c, Forall (fun x => x = None \/ x = Some c) xs.
Proof.
  unfold sum_sq_dev. set (mu := rsum _ / _). intros H.
  apply fold_squares_zero in H as [_ Hall]; [|lra].
  exists mu. clearbody mu.
  induction xs as [|[r|] xs IH]; simpl in Hall.
  - constructor.
  - inversion Hall as [|? ? Hr Hrs]; subst. constructor; auto.
  - constructor; auto.
Qed.

Lemma welford_step_flat_x (c : R) (w : welford exact) (v : exact * exact) :
  fst v = None \/ fst v = Some c ->
  flat_x c w -> flat_x c (welford_step w v).
Proof.
  destruct v as [vx vy]. simpl fst. intros Hv (Hs & Hm).
  unfold welford_step.
  destruct Hv as [-> | ->]; [exact (conj Hs Hm)|].
  destruct vy as [b|]; [|exact (conj Hs Hm)].
  cbn [fisnan exact_arith exact_isnan orb].
  unfold flat_x. cbn [nobs meanx ssqdm_x]. rewrite Hs.
  destruct Hm as [[Hn Hmx] | [Hn Hmx]]; rewrite Hmx, ?Hn; simpl.
  - split; [f_equal; field | right; split; [lia | f_equal; field]].
  - assert (Hz : IZR (nobs w + 1) <> 0) by (apply not_0_IZR; lia).
    split; [f_equal; field; exact Hz |
            right; split; [lia | f_equal; field; exact Hz]].
Qed.

Lemma welford_step_flat_y (c : R) (w : welford exact) (v : exact * exact) :
  snd v = None \/ snd v = Some c ->
  flat_y c w -> flat_y c (welford_step w v).
Proof.
  destruct v as [vx vy]. simpl snd. intros Hv (Hs & Hm).
  unfold welford_step.
  destruct vx as [a|]; [|exact (conj Hs Hm)].
  destruct Hv as [-> | ->]; [exact (conj Hs Hm)|].
  cbn [fisnan exact_arith exact_isnan orb].
  unfold flat_y. cbn [nobs meany ssqdm_y]. rewrite Hs.
  destruct Hm as [[Hn Hmy] | [Hn Hmy]]; rewrite Hmy, ?Hn; simpl.
  - split; [f_equal; field | right; split; [lia | f_equal; field]].
  - assert (Hz : IZR (nobs w + 1) <> 0) by (apply not_0_IZR; lia).
    split; [f_equal; field; exact Hz |
            right; split; [lia | f_equal; field; exact Hz]].
Qed.

Lemma fold_welford_invariant (P : welford exact -> Prop)
      (Q : exact * exact -> Prop) (obs : list (exact * exact))
      (w : welford exact) :
  (forall w v, Q v -> P w -> P (welford_step w v)) ->
  Forall Q obs -> P w -> P (fold_left welford_step obs w).
Proof.
  intros Hstep Hobs. revert w.
  induction Hobs as [|v obs Hv Hobs IH]; intros w Hw; simpl; auto.
Qed.

Lemma Forall_combine_fst {X Y : Type} (P : X -> Prop) (xs : list X)
      (ys : list Y) :
  Forall P xs -> Forall (fun v => P (fst v)) (combine xs ys).
Proof.
  intros H. revert ys.
  induction H as [|x xs Hx Hxs IH]; intros [|y ys]; simpl; auto.
Qed.

Lemma Forall_combine_snd {X Y : Type} (P : Y -> Prop) (xs : list X)
      (ys : list Y) :
  Forall P ys -> Forall (fun v => P (snd v)) (combine xs ys).
Proof.
  intros H. revert xs.
  induction H as [|y ys Hy Hys IH]; intros [|x xs]; simpl; auto.
Qed.

(** With no spread on one side the divisor is zero (or NaN), and the
    coefficient is NaN. *)
Lemma coefficient_nan (w : welford exact) :
  ssqdm_x w = Some 0 \/ ssqdm_y w = Some 0 ->
  (if (nobs w <? 1)%Z then fnan
   else
     let divisor := fsqrt (fmul (ssqdm_x w) (ssqdm_y w)) in
     if negb (feq divisor (of_Z 0)) then fdiv (covxy w) divisor else fnan)
  = (None : exact).
Proof.
  intros H. destruct (nobs w <? 1)%Z; [reflexivity|]. cbv zeta.
  assert (Hd : fsqrt (fmul (ssqdm_x w) (ssqdm_y w)) = None
               \/ fsqrt (fmul (ssqdm_x w) (ssqdm_y w)) = (Some 0 : exact)).
  { destruct H as [-> | ->].
    - destruct (ssqdm_y w) as [s|]; [right | now left].
      simpl. rewrite Rmult_0_l.
      destruct (Rlt_dec 0 0); [lra | now rewrite sqrt_0].
    - destruct (ssqdm_x w) as [s|]; [right | now left].
      simpl. rewrite Rmult_0_r.
      destruct (Rlt_dec 0 0); [lra | now rewrite sqrt_0]. }
  destruct Hd as [-> | ->]; simpl.
  - destruct (covxy w); reflexivity.
  - destruct (Req_dec_T 0 0); [reflexivity | lra].
Qed.

Lemma nancorr_constant_l (c : R) (xs ys : list exact) :
  Forall (fun x => x = None \/ x = Some c) xs -> nancorr xs ys = None.
Proof.
  intros H. unfold nancorr. cbv zeta. apply coefficient_nan. left.
  apply (@fold_welford_invariant (flat_x c)
           (fun v => fst v = None \/ fst v = Some c)).
  - intros w v. apply welford_step_flat_x.
  - exact (@Forall_combine_fst _ _ (fun x => x = None \/ x = Some c) xs ys H).
  - split; [reflexivity | left; now split].
Qed.

Lemma nancorr_constant_r (c : R) (xs ys : list exact) :
  Forall (fun y => y = None \/ y = Some c) ys -> nancorr xs ys = None.
Proof.
  intros H. unfold nancorr. cbv zeta. apply coefficient_nan. right.
  apply (@fold_welford_invariant (flat_y c)
           (fun v => snd v = None \/ snd v = Some c)).
  - intros w v. apply welford_step_flat_y.
  - exact (@Forall_combine_snd _ _ (fun y => y = None \/ y = Some c) xs ys H).
  - split; [reflexivity | left; now split].
Qed.

End ExactCorrelation.

Lemma nth_map_seq {X : Type} (f : nat -> X) (k i : nat) (d : X) :
  i < k -> nth i (map f (seq 0 k)) d = f i.
Proof.
  intros Hi.
  rewrite (nth_indep _ d (f 0%nat))
    by (rewrite length_map, length_seq; exact Hi).
  rewrite map_nth, seq_nth by exact Hi. reflexivity.
Qed.

Lemma corr_shape {F : Type} {A : Arith F} (df : frame F) :
  length (corr df) = length (numeric_values df)
  /\ Forall (fun row => length row = length (numeric_values df)) (corr df).
Proof.
  unfold corr. cbv zeta. split.
  - now rewrite length_map, length_seq.
  - apply Forall_map, Forall_forall. intros i _.
    now rewrite length_map, length_seq.
Qed.


(** ** The theorems at concrete tables *)






(** * Further properties of the pages *)

(** ** When the numeric pages fail *)

Section PageErrors.

Context {F : Type} {A : Arith F}.

Lemma selectbox_none (options : list string) (choice : nat) :
  length options <= choice -> selectbox options choice = None.
Proof.
  intros H. unfold selectbox. now apply nth_error_None.
Qed.

Lemma selectbox_some (options : list string) (choice : nat) :
  choice < length options -> exists name, selectbox options choice = Some name.
Proof.
  intros H. unfold selectbox.
  destruct (nth_error options choice) as [name|] eqn:E; [now exists name|].
  apply nth_error_None in E. lia.
Qed.

(** X1.  On a well-formed table, the outlier page and the trend page return
    a result exactly when the position picked in the select box is that of a
    numeric column; otherwise (in particular when the table has no numeric
    column, the select box then returning [None]) both raise [KeyError]. *)
Theorem numeric_pages_fail_without_column (df : frame F) (choice : nat) :
  wf_frame df = true ->
  let num_cols := columns_tolist (select_dtypes_number df) in
  (choice < length num_cols ->
     (exists rep, outlier_page df choice = Ok rep)
     /\ (exists v, trend_page df choice = Ok v))
  /\ (length num_cols <= choice ->
        outlier_page df choice = Raise KeyError
        /\ trend_page df choice = Raise KeyError).
Proof.
  intros Hwf num_cols. split.
  - intros Hlt. destruct (selectbox_some num_cols Hlt) as [name Hsel].
    destruct (selected_is_numeric df choice Hwf Hsel) as [xs Hl].
    unfold outlier_page, trend_page. fold num_cols. rewrite Hsel. split.
    + rewrite (detect_numeric df name Hl). cbv zeta. eexists. reflexivity.
    + rewrite (analyze_trend_numeric df name Hl). eexists. reflexivity.
  - intros Hge. unfold outlier_page, trend_page. fold num_cols.
    rewrite (selectbox_none num_cols Hge). split; reflexivity.
Qed.

End PageErrors.

(** Both branches on the table [people], which has one numeric column. *)
Lemma numeric_pages_fail_without_column_witness :
  ((exists rep, outlier_page people 0 = Ok rep)
   /\ (exists v, trend_page people 0 = Ok v))
  /\ (outlier_page people 1 = Raise KeyError
      /\ trend_page people 1 = Raise KeyError).
Proof.
  split.
  - apply (proj1 (@numeric_pages_fail_without_column float binary64 people 0
                    eq_refl)).
    simpl. lia.
  - apply (proj2 (@numeric_pages_fail_without_column float binary64 people 1
                    eq_refl)).
    simpl. lia.
Defined.

(** ** The outlier subset *)

Section Subset.

Context {F : Type} {A : Arith F}.

Lemma mask_filter_subseq {X : Type} (m : list bool) (l : list X) :
  subseq (mask_filter m l) l.
Proof.
  revert l. induction m as [|b m IH]; intros [|x l]; simpl.
  - constructor.
  - constructor. clear. induction l; constructor; auto.
  - constructor.
  - destruct b; constructor; apply IH.
Qed.

Lemma subseq_length {X : Type} (l1 l2 : list X) :
  subseq l1 l2 -> length l1 <= length l2.
Proof.
  induction 1; simpl; lia.
Qed.

Lemma frame_mask_names (df : frame F) (m : list bool) :
  columns_tolist (frame_mask df m) = columns_tolist df.
Proof.
  unfold columns_tolist, frame_mask. simpl. rewrite map_map. reflexivity.
Qed.

(** Filtering the rows of a well-formed table by a mask with one entry per
    row gives a well-formed table. *)
Lemma frame_mask_wf (df : frame F) (m : list bool) :
  wf_frame df = true -> length m = shape0 df ->
  wf_frame (frame_mask df m) = true.
Proof.
  intros Hwf Hm. pose proof (wf_frame_columns df Hwf) as Hcols.
  apply andb_prop in Hwf as [_ Hnd].
  unfold wf_frame. rewrite frame_mask_names, Hnd, andb_true_r.
  apply forallb_forall. intros c Hin. apply Nat.eqb_eq.
  unfold frame_mask in Hin. simpl in Hin.
  apply in_map_iff in Hin as ([n s] & <- & Hin). simpl.
  rewrite Forall_forall in Hcols. specialize (Hcols _ Hin). simpl in Hcols.
  unfold shape0, frame_mask. simpl.
  rewrite series_mask_len by congruence.
  symmetry. apply mask_filter_length. exact Hm.
Qed.

(** X2.  Whenever detection returns a report on a well-formed table, the
    outlier subset is a well-formed table with all the columns of the table,
    under the same names and in the same order; its row labels are row labels
    of the table in their original order; and the count is at most the number
    of rows. *)
Theorem outliers_is_subtable (df : frame F) (col : option string)
        (rep : outlier_report F) :
  wf_frame df = true ->
  detect df col = Ok rep ->
  wf_frame (outliers rep) = true
  /\ columns_tolist (outliers rep) = columns_tolist df
  /\ subseq (index (outliers rep)) (index df)
  /\ total rep <= shape0 df.
Proof.
  intros Hwf Hd. destruct col as [name|]; [|discriminate].
  destruct (lookup name (columns df)) as [[xs|os]|] eqn:Hl.
  - rewrite (detect_numeric df name Hl) in Hd. cbv zeta in Hd.
    injection Hd as <-. cbn [outliers total].
    pose proof (wf_frame_series_len df name Hwf Hl) as Hlen. simpl in Hlen.
    split; [|split; [|split]].
    + apply frame_mask_wf; [exact Hwf | now rewrite length_map].
    + apply frame_mask_names.
    + apply mask_filter_subseq.
    + unfold shape0 at 1. simpl. apply subseq_length, mask_filter_subseq.
  - unfold detect in Hd. simpl in Hd. rewrite Hl in Hd. discriminate.
  - unfold detect in Hd. simpl in Hd. rewrite Hl in Hd. discriminate.
Qed.

End Subset.

(** The subset of the table [readings]. *)
Lemma outliers_is_subtable_witness :
  let rep :=
    {| Q1 := 2%float; Q3 := 4%float; IQR := 2%float;
       lower := (-1)%float; upper := 7%float;
       outliers := {| index := [5%nat];
                      columns := [("x", Float64 [100%float])] |};
       total := 1 |} in
  wf_frame (outliers rep) = true
  /\ columns_tolist (outliers rep) = columns_tolist readings
  /\ subseq (index (outliers rep)) (index readings)
  /\ total rep <= shape0 readings.
Proof.
  apply (@outliers_is_subtable float binary64 readings (Some "x")).
  - reflexivity.
  - vm_compute. reflexivity.
Defined.

(** ** The preview page *)

Section PreviewFacts.

Context {F : Type} {A : Arith F}.

Local Opaque firstn.

Lemma series_head_len (n : nat) (s : series F) :
  series_len (series_head n s) = Nat.min n (series_len s).
Proof.
  destruct s; simpl; apply length_firstn.
Qed.

Lemma series_head_head (n : nat) (s : series F) :
  series_head n (series_head n s) = series_head n s.
Proof.
  destruct s; simpl; now rewrite firstn_firstn, Nat.min_id.
Qed.

Lemma series_head_all (n : nat) (s : series F) :
  series_len s <= n -> series_head n s = s.
Proof.
  destruct s; simpl; intros H; now rewrite firstn_all2.
Qed.


Lemma lookup_map_snd {X Y : Type} (f : X -> Y) (name : string)
      (l : list (string * X)) :
  lookup name (map (fun c => (fst c, f (snd c))) l)
  = option_map f (lookup name l).
Proof.
  induction l as [|[n x] l IH]; simpl; [reflexivity|].
  destruct (String.eqb name n); [reflexivity | exact IH].
Qed.

Lemma null_count_present (xs : list F) :
  null_count (Float64 xs) + length (notna_values xs) = length xs.
Proof.
  unfold null_count, notna_values. simpl.
  induction xs as [|x xs IH]; simpl; [reflexivity|].
  destruct (fisnan x); simpl; lia.
Qed.

Lemma null_count_le (s : series F) : null_count s <= series_len s.
Proof.
  unfold null_count. rewrite <- isna_length.
  induction (isna s) as [|b l IH]; simpl; [lia|].
  destruct b; simpl; lia.
Qed.

Lemma any_na_null_count (s : series F) :
  any_na s = false <-> null_count s = 0.
Proof.
  unfold any_na, null_count.
  induction (isna s) as [|b l IH]; simpl; [tauto|].
  destruct b; simpl; [split; discriminate | exact IH].
Qed.

(** X4.  On a well-formed table, [df.isnull().sum()] has one entry per
    column, in order; the entry of a numeric column and the number of its
    present values add up to the number of rows; no entry exceeds the number
    of rows; and the entries are all zero exactly when no entry of the table
    is missing. *)
Theorem null_counts_of_table (df : frame F) :
  wf_frame df = true ->
  map fst (isnull_sum df) = columns_tolist df
  /\ (forall name xs, lookup name (columns df) = Some (Float64 xs) ->
        exists k, lookup name (isnull_sum df) = Some k
                  /\ k + length (notna_values xs) = shape0 df)
  /\ (forall name k, In (name, k) (isnull_sum df) -> k <= shape0 df)
  /\ (complete df = true
      <-> forall name k, In (name, k) (isnull_sum df) -> k = 0).
Proof.
  intros Hwf. pose proof (wf_frame_columns df Hwf) as Hcols.
  rewrite Forall_forall in Hcols.
  split; [|split; [|split]].
  - unfold isnull_sum, columns_tolist. now rewrite map_map.
  - intros name xs Hl. exists (null_count (Float64 xs)). split.
    + unfold isnull_sum. now rewrite lookup_map_snd, Hl.
    + rewrite null_count_present.
      exact (wf_frame_series_len df name Hwf Hl).
  - intros name k Hin. unfold isnull_sum in Hin.
    apply in_map_iff in Hin as ([n s] & [= <- <-] & Hin).
    rewrite <- (Hcols _ Hin). apply null_count_le.
  - unfold complete. rewrite forallb_forall. split.
    + intros H name k Hin. unfold isnull_sum in Hin.
      apply in_map_iff in Hin as ([n s] & [= <- <-] & Hin).
      apply any_na_null_count. apply negb_true_iff. exact (H _ Hin).
    + intros H [n s] Hin. apply negb_true_iff, any_na_null_count. simpl.
      apply (H n). unfold isnull_sum.
      apply in_map_iff. exists (n, s). now split.
Qed.

End PreviewFacts.


(** The null counts of [people]: one missing name, one missing number. *)
Lemma null_counts_of_table_witness :
  map fst (isnull_sum people) = columns_tolist people
  /\ (forall name xs, lookup name (columns people) = Some (Float64 xs) ->
        exists k, lookup name (isnull_sum people) = Some k
                  /\ k + length (notna_values xs) = shape0 people)
  /\ (forall name k, In (name, k) (isnull_sum people) -> k <= shape0 people)
  /\ (complete people = true
      <-> forall name k, In (name, k) (isnull_sum people) -> k = 0).
Proof.
  exact (@null_counts_of_table float binary64 people eq_refl).
Defined.

(** ** What cleaning keeps and what it removes *)

Section CleaningFacts.

Context {F : Type} {A : Arith F}.

Lemma filter_subseq {X : Type} (p : X -> bool) (l : list X) :
  subseq (filter p l) l.
Proof.
  induction l as [|x l IH]; simpl; [constructor|].
  destruct (p x); [now apply subseq_keep | now apply subseq_skip].
Qed.

Lemma subseq_refl {X : Type} (l : list X) : subseq l l.
Proof.
  induction l as [|x l IH]; [apply subseq_nil | now apply subseq_keep].
Qed.

Lemma subseq_map {X Y : Type} (f : X -> Y) (l1 l2 : list X) :
  subseq l1 l2 -> subseq (map f l1) (map f l2).
Proof.
  induction 1; simpl; [apply subseq_nil | apply subseq_skip | apply subseq_keep];
    assumption.
Qed.

Lemma subseq_In {X : Type} (l1 l2 : list X) (x : X) :
  subseq l1 l2 -> In x l1 -> In x l2.
Proof.
  induction 1; simpl; intuition.
Qed.

Lemma nodup_names_subseq (l1 l2 : list string) :
  subseq l1 l2 -> nodup_names l2 = true -> nodup_names l1 = true.
Proof.
  induction 1 as [|x l1 l2 Hs IH|x l1 l2 Hs IH]; simpl; auto.
  - intros H. apply andb_prop in H as [_ H]. auto.
  - intros H. apply andb_prop in H as [Hx H]. rewrite (IH H), andb_true_r.
    apply negb_true_iff. apply negb_true_iff in Hx.
    destruct (existsb (String.eqb x) l1) eqn:E; [|reflexivity].
    apply existsb_exists in E as (y & Hy & Hxy).
    assert (existsb (String.eqb x) l2 = true); [|congruence].
    apply existsb_exists. exists y. split; [|exact Hxy].
    exact (@subseq_In _ _ _ _ Hs Hy).
Qed.

Lemma fill_values_length (v : F) (xs : list F) :
  length (fill_values v xs) = length xs.
Proof.
  apply length_map.
Qed.

Lemma clean_wf (df : frame F) (m : method) :
  wf_frame df = true -> wf_frame (clean df m) = true.
Proof.
  intros Hwf. pose proof (wf_frame_columns df Hwf) as Hcols.
  pose proof Hwf as Hwf'. apply andb_prop in Hwf' as [_ Hnd].
  assert (Hfill : forall g : string * series F -> string * series F,
            (forall c, fst (g c) = fst c
                       /\ series_len (snd (g c)) = series_len (snd c)) ->
            wf_frame {| index := index df; columns := map g (columns df) |}
            = true).
  { intros g Hg. unfold wf_frame, columns_tolist, shape0. simpl.
    rewrite map_map.
    rewrite (map_ext (fun c => fst (g c)) fst) by (intros c; apply Hg).
    unfold columns_tolist in Hnd. rewrite Hnd, andb_true_r.
    apply forallb_forall. intros c Hin. apply Nat.eqb_eq.
    apply in_map_iff in Hin as (c0 & <- & Hin).
    destruct (Hg c0) as [_ ->]. rewrite Forall_forall in Hcols.
    exact (Hcols _ Hin). }
  destruct m; simpl.
  - apply frame_mask_wf; [exact Hwf|].
    rewrite length_map. now apply row_has_na_length.
  - unfold dropna_columns, wf_frame, columns_tolist, shape0. simpl.
    apply andb_true_intro. split.
    + apply forallb_forall. intros c Hin. apply filter_In in Hin as [Hin _].
      apply Nat.eqb_eq. rewrite Forall_forall in Hcols. exact (Hcols _ Hin).
    + apply (nodup_names_subseq (l2 := map fst (columns df)));
        [apply subseq_map, filter_subseq | exact Hnd].
  - apply Hfill. intros [n s]. simpl.
    destruct s as [xs|os]; [|now split].
    destruct (lookup n (frame_mean df)); simpl;
      [rewrite fill_values_length|]; now split.
  - apply Hfill. intros [n s]. simpl.
    destruct s as [xs|os]; [|now split].
    destruct (lookup n (frame_median df)); simpl;
      [rewrite fill_values_length|]; now split.
  - apply Hfill. intros [n s]. simpl.
    destruct s as [xs|os]; simpl;
      [rewrite fill_values_length | rewrite length_map]; now split.
Qed.



End CleaningFacts.


(** ** Tables without missing entries *)

Section Complete.

Context {F : Type} {A : Arith F}.

Lemma existsb_id_false (l : list bool) :
  existsb (fun b => b) l = false <-> l = repeat false (length l).
Proof.
  induction l as [|b l IH]; simpl; [tauto|].
  destruct b; simpl.
  - split; discriminate.
  - rewrite IH. split; [intros <-; reflexivity | intros [= H]; exact H].
Qed.

Lemma zip_orb_false (k : nat) (a b : list bool) :
  length a = k -> length b = k ->
  (zip_with orb a b = repeat false k
   <-> a = repeat false k /\ b = repeat false k).
Proof.
  revert a b. induction k as [|k IH]; intros [|x a] [|y b] Ha Hb;
    simpl in *; try discriminate; [tauto|].
  injection Ha as Ha. injection Hb as Hb. split.
  - intros [= Hxy Hz]. apply orb_false_iff in Hxy as [-> ->].
    apply (IH a b Ha Hb) in Hz as [-> ->]. now split.
  - intros [[= -> Ha'] [= -> Hb']]. simpl. f_equal.
    apply (IH a b Ha Hb). now split.
Qed.

(** The row-wise mask is all [False] exactly when no column has a missing
    entry. *)
Lemma row_has_na_false (k : nat) (cols : list (string * series F)) :
  Forall (fun c => series_len (snd c) = k) cols ->
  (fold_right (fun c acc => zip_with orb (isna (snd c)) acc)
              (repeat false k) cols = repeat false k
   <-> Forall (fun c => any_na (snd c) = false) cols).
Proof.
  induction 1 as [|c cols Hc Hcols IH]; simpl.
  - split; auto.
  - rewrite zip_orb_false;
      [|now rewrite isna_length | now apply row_has_na_length].
    rewrite IH.
    assert (Hna : any_na (snd c) = false <-> isna (snd c) = repeat false k).
    { unfold any_na. rewrite existsb_id_false, isna_length, Hc. reflexivity. }
    split.
    + intros [H1 H2]. constructor; [now apply Hna | exact H2].
    + intros H. inversion H; subst. split; [now apply Hna | assumption].
Qed.

Lemma complete_Forall (df : frame F) :
  complete df = true <-> Forall (fun c => any_na (snd c) = false) (columns df).
Proof.
  unfold complete. rewrite forallb_forall, Forall_forall.
  split; intros H c Hin; specialize (H c Hin);
    [now apply negb_true_iff in H | now apply negb_true_iff].
Qed.

Lemma row_has_na_dropna (df : frame F) :
  wf_frame df = true ->
  row_has_na (dropna df) = repeat false (shape0 (dropna df)).
Proof.
  intros Hwf. pose proof (wf_frame_columns df Hwf) as Hcols.
  set (r := row_has_na df). set (m := map negb r).
  assert (Hr : length r = shape0 df) by now apply row_has_na_length.
  assert (Hm : length m = shape0 df) by (unfold m; now rewrite length_map).
  assert (Hidx : shape0 (dropna df) = length (filter (fun b => b) m)).
  { unfold shape0, dropna. simpl. apply mask_filter_length. exact Hm. }
  rewrite Hidx. unfold row_has_na. rewrite Hidx.
  unfold dropna. fold r. fold m. simpl. rewrite row_has_na_mask.
  - rewrite Hm. fold (row_has_na df). fold r. unfold m.
    apply mask_filter_negb_self.
  - rewrite Hm. exact Hcols.
Qed.

Lemma fill_values_present (v : F) (xs : list F) :
  any_na (Float64 xs) = false -> fill_values v xs = xs.
Proof.
  unfold any_na. simpl. unfold fill_values.
  induction xs as [|x xs IH]; simpl; [reflexivity|].
  intros H. apply orb_false_iff in H as [-> H]. now rewrite IH.
Qed.

Lemma fill_values_complete (v : F) (xs : list F) :
  fisnan v = false -> any_na (Float64 (fill_values v xs)) = false.
Proof.
  intros Hv. unfold any_na. simpl. unfold fill_values.
  induction xs as [|x xs IH]; simpl; [reflexivity|].
  rewrite IH, orb_false_r. destruct (fisnan x) eqn:E; [exact Hv | exact E].
Qed.

Lemma clean_complete (df : frame F) :
  wf_frame df = true ->
  fisnan (of_Z 0) = false ->
  complete (clean df DropRowsWithNulls) = true
  /\ complete (clean df DropColumnsWithNulls) = true
  /\ complete (clean df FillWithZero) = true.
Proof.
  intros Hwf Hzero. split; [|split]; simpl.
  - apply complete_Forall.
    pose proof (clean_wf df DropRowsWithNulls Hwf) as Hwf'.
    simpl in Hwf'.
    apply (row_has_na_false (wf_frame_columns _ Hwf')).
    exact (row_has_na_dropna df Hwf).
  - unfold complete, dropna_columns. simpl. apply forallb_forall.
    intros c Hin. now apply filter_In in Hin as [_ Hin].
  - unfold complete, fillna_zero. simpl. apply forallb_forall.
    intros c Hin. apply in_map_iff in Hin as ([n s] & <- & _).
    apply negb_true_iff. destruct s as [xs|os]; simpl.
    + now apply fill_values_complete.
    + unfold any_na. simpl. clear. induction os as [|[o|] os IH]; simpl; auto.
Qed.

(** X7.  After dropping rows, after dropping columns, and after filling
    with 0 (the number 0 not being NaN), no entry of the table is missing. *)
Theorem clean_removes_nulls (df : frame F) :
  wf_frame df = true ->
  fisnan (of_Z 0) = false ->
  complete (clean df DropRowsWithNulls) = true
  /\ complete (clean df DropColumnsWithNulls) = true
  /\ complete (clean df FillWithZero) = true.
Proof.
  intros Hwf Hzero. now apply clean_complete.
Qed.

Lemma clean_identity (df : frame F) (m : method) :
  wf_frame df = true ->
  complete df = true ->
  clean df m = df.
Proof.
  intros Hwf Hc. pose proof (wf_frame_columns df Hwf) as Hcols.
  apply complete_Forall in Hc.
  assert (Hmap : forall g : string * series F -> string * series F,
            (forall c, any_na (snd c) = false -> g c = c) ->
            {| index := index df; columns := map g (columns df) |} = df).
  { intros g Hg. destruct df as [idx cols]. simpl in *. f_equal.
    rewrite <- (map_id cols) at 2. apply map_ext_in. intros c Hin.
    apply Hg. rewrite Forall_forall in Hc. exact (Hc _ Hin). }
  destruct m; simpl.
  - unfold dropna.
    assert (Hr : row_has_na df = repeat false (shape0 df))
      by now apply (row_has_na_false Hcols).
    rewrite Hr.
    assert (Ht : map negb (repeat false (shape0 df)) = repeat true (shape0 df))
      by (generalize (shape0 df); intros k; induction k; simpl; congruence).
    rewrite Ht. destruct df as [idx cols]. unfold frame_mask, shape0 in *.
    simpl in *. f_equal.
    + now apply mask_filter_all_true.
    + rewrite <- (map_id cols) at 2. apply map_ext_in. intros [n s] Hin.
      simpl. f_equal. apply series_mask_all_true.
      rewrite Forall_forall in Hcols. exact (Hcols _ Hin).
  - unfold dropna_columns. destruct df as [idx cols]. simpl in *. f_equal.
    clear Hcols Hwf Hmap. induction Hc as [|c cols Hc Hcs IH]; simpl;
      [reflexivity|]. now rewrite Hc, IH.
  - apply Hmap. intros [n s] Hn. simpl in *.
    destruct s as [xs|os]; [|reflexivity].
    destruct (lookup n (frame_mean df)); [|reflexivity].
    now rewrite fill_values_present.
  - apply Hmap. intros [n s] Hn. simpl in *.
    destruct s as [xs|os]; [|reflexivity].
    destruct (lookup n (frame_median df)); [|reflexivity].
    now rewrite fill_values_present.
  - apply Hmap. intros [n s] Hn. simpl in *.
    destruct s as [xs|os]; f_equal; f_equal.
    + now apply fill_values_present.
    + unfold any_na in Hn. simpl in Hn.
      induction os as [|[o|] os IH]; simpl in *;
        [reflexivity | now rewrite IH | discriminate].
Qed.



End Complete.

(** Cleaning the table [people]: no entry is missing afterwards. *)
Lemma clean_removes_nulls_witness :
  complete (clean people DropRowsWithNulls) = true
  /\ complete (clean people DropColumnsWithNulls) = true
  /\ complete (clean people FillWithZero) = true.
Proof.
  apply (@clean_removes_nulls float binary64 people); reflexivity.
Defined.



(** ** Filling with the median, and the mean after filling with the mean *)



Section ExactFill.

Local Open Scope R_scope.

Lemma rsum_from (rs : list R) (acc : R) :
  fold_left Rplus rs acc = acc + rsum rs.
Proof.
  unfold rsum. revert acc. induction rs as [|r rs IH]; intros acc; simpl.
  - ring.
  - rewrite IH, (IH (0 + r)). ring.
Qed.

Lemma rsum_cons (r : R) (rs : list R) : rsum (r :: rs) = r + rsum rs.
Proof.
  unfold rsum at 1. simpl. rewrite rsum_from. ring.
Qed.

Lemma notna_values_present (xs : list exact) :
  notna_values xs = map Some (present_values xs).
Proof.
  induction xs as [|[r|] xs IH]; simpl; [reflexivity | | exact IH].
  now rewrite IH.
Qed.

Lemma fsum_map_Some (rs : list R) : fsum (map Some rs) = Some (rsum rs).
Proof.
  unfold fsum, rsum. apply fold_fadd_map_Some.
Qed.

(** The mean of a column with a present value, as a real. *)
Lemma nanmean_exact (xs : list exact) :
  present_values xs <> [] ->
  nanmean xs
  = Some (rsum (present_values xs)
          / IZR (Z.of_nat (length (present_values xs)))).
Proof.
  intros Hne. unfold nanmean. rewrite notna_values_present, length_map.
  destruct (present_values xs) as [|r rs] eqn:E; [contradiction|].
  change (length (r :: rs) =? 0)%nat with false. cbv iota.
  now rewrite fsum_map_Some.
Qed.

(** Filling the missing entries with [mu] gives a column of reals whose sum
    is the sum of the present values plus [mu] for each missing entry. *)
Lemma fill_values_exact (mu : R) (xs : list exact) :
  exists (ys : list R) (k : nat),
    fill_values (Some mu) xs = map Some ys
    /\ length ys = length xs
    /\ length xs = (length (present_values xs) + k)%nat
    /\ rsum ys = rsum (present_values xs) + IZR (Z.of_nat k) * mu.
Proof.
  induction xs as [|[r|] xs (ys & k & Hy & Hlen & Hk & Hsum)]; simpl.
  - exists [], 0%nat. repeat split. unfold rsum. simpl. ring.
  - exists (r :: ys), k. rewrite Hy.
    split; [reflexivity|]. split; [simpl; lia|]. split; [lia|].
    rewrite !rsum_cons, Hsum. ring.
  - exists (mu :: ys), (S k). rewrite Hy.
    split; [reflexivity|]. split; [simpl; lia|]. split; [lia|].
    rewrite rsum_cons, Hsum, Nat2Z.inj_succ, succ_IZR. ring.
Qed.

Lemma present_values_map_Some (ys : list R) :
  present_values (map Some ys) = ys.
Proof.
  induction ys as [|y ys IH]; simpl; [reflexivity | now rewrite IH].
Qed.

Lemma present_values_length (xs : list exact) :
  (length (present_values xs) <= length xs)%nat.
Proof.
  induction xs as [|[r|] xs IH]; simpl; lia.
Qed.

Lemma lookup_map_numeric {F : Type} (h : list F -> list F) (name : string)
      (cols : list (string * series F)) (xs : list F) :
  lookup name cols = Some (Float64 xs) ->
  lookup name
    (map (fun c => match snd c with
                   | Float64 ys => (fst c, Float64 (h ys))
                   | Object _ => c
                   end) cols)
  = Some (Float64 (h xs)).
Proof.
  induction cols as [|[n s] cols IH]; simpl; [discriminate|].
  destruct s as [ys|os]; simpl; destruct (String.eqb name n);
    try (intros [= ->]; reflexivity); try discriminate; exact IH.
Qed.


End ExactFill.


(** ** The order of the quartiles, in exact arithmetic *)

Section ExactOrder.

Local Open Scope R_scope.

Lemma insert_sorted_exact (r : R) (ss : list R) :
  StronglySorted Rle ss ->
  exists ss' : list R,
    insert_sorted (Some r) (map Some ss) = map Some ss'
    /\ StronglySorted Rle ss'
    /\ length ss' = Datatypes.S (length ss)
    /\ (forall x, In x ss' <-> x = r \/ In x ss).
Proof.
  induction 1 as [|y ss Hss IH Hy]; simpl.
  - exists [r]. split; [reflexivity|]. split; [repeat constructor|].
    split; [reflexivity|]. intros x. simpl. intuition congruence.
  - destruct IH as (ss' & He & Hs' & Hl & Hin).
    destruct (Rlt_dec y r) as [Hlt | Hge].
    + exists (y :: ss'). simpl. rewrite He. split; [reflexivity|].
      split; [|split].
      * constructor; [exact Hs'|]. apply Forall_forall. intros x Hx.
        apply Hin in Hx as [-> | Hx]; [lra|].
        rewrite Forall_forall in Hy. now apply Hy.
      * now rewrite Hl.
      * intros x. simpl. rewrite Hin. intuition congruence.
    + exists (r :: y :: ss). simpl. split; [reflexivity|].
      split; [|split].
      * constructor; [now constructor|]. constructor; [lra|].
        eapply Forall_impl; [|exact Hy]. simpl. intros; lra.
      * reflexivity.
      * intros x. simpl. intuition congruence.
Qed.

(** Sorting a column of reals gives an ascending list with the same
    values. *)
Lemma sort_values_exact (rs : list R) :
  exists ss : list R,
    sort_values (map Some rs) = map Some ss
    /\ StronglySorted Rle ss
    /\ length ss = length rs
    /\ (forall x, In x ss <-> In x rs).
Proof.
  induction rs as [|r rs (ss & He & Hs & Hl & Hin)]; simpl.
  - exists []. split; [reflexivity|]. split; [constructor|].
    split; [reflexivity|]. intros x. simpl. tauto.
  - rewrite He.
    destruct (insert_sorted_exact r Hs) as (ss' & He' & Hs' & Hl' & Hin').
    exists ss'. split; [exact He'|]. split; [exact Hs'|].
    split; [now rewrite Hl', Hl|].
    intros x. rewrite Hin', Hin. intuition congruence.
Qed.

Lemma sorted_nth (ss : list R) (i j : nat) :
  StronglySorted Rle ss -> (i <= j < length ss)%nat ->
  nth i ss 0 <= nth j ss 0.
Proof.
  intros Hs. revert i j.
  induction Hs as [|y ss Hss IH Hy]; intros i j Hij; simpl in *; [lia|].
  destruct i as [|i], j as [|j]; try lia; try lra.
  - rewrite Forall_forall in Hy. apply Hy. apply nth_In. lia.
  - apply IH. lia.
Qed.

Lemma nth_map_Some (ss : list R) (i : nat) :
  (i < length ss)%nat -> nth i (map Some ss) None = Some (nth i ss 0).
Proof.
  revert i. induction ss as [|s ss IH]; intros [|i] H; simpl in *;
    try lia; auto.
  apply IH. lia.
Qed.

Lemma quantile_position (n num den : Z) :
  (0 < n)%Z -> (0 <= num <= den)%Z -> (0 < den)%Z ->
  let pos := ((n - 1) * num)%Z in
  (0 <= pos / den <= n - 1)%Z /\ (0 <= pos mod den < den)%Z.
Proof.
  intros Hn Hq Hden pos. split; [split|].
  - apply Z.div_pos; [unfold pos; nia | lia].
  - apply Z.div_le_upper_bound; [lia | unfold pos; nia].
  - apply Z.mod_pos_bound. lia.
Qed.

Lemma quantile_values_exact (xs : list exact) (ss : list R) (num den : Z) :
  sort_values (notna_values xs) = map Some ss ->
  ss <> [] ->
  (0 <= num <= den)%Z -> (0 < den)%Z ->
  quantile_values xs num den = Some (rquantile ss num den).
Proof.
  intros Hs Hne Hq Hden. unfold quantile_values, rquantile. rewrite Hs.
  rewrite length_map.
  set (n := Z.of_nat (length ss)).
  assert (Hn : (0 < n)%Z) by (unfold n; destruct ss; [contradiction | simpl; lia]).
  destruct (n =? 0)%Z eqn:E; [apply Z.eqb_eq in E; lia|].
  destruct (quantile_position Hn Hq Hden) as [Hj Hr]. cbv zeta in Hj, Hr.
  rewrite !nth_map_Some by (unfold n in *; lia).
  reflexivity.
Qed.

(** Between the least and the greatest value of the positions it
    interpolates. *)
Lemma rquantile_between (ss : list R) (num den : Z) :
  StronglySorted Rle ss -> ss <> [] ->
  (0 <= num <= den)%Z -> (0 < den)%Z ->
  let n := Z.of_nat (length ss) in
  let j := ((n - 1) * num / den)%Z in
  nth (Z.to_nat j) ss 0 <= rquantile ss num den
  /\ rquantile ss num den <= nth (Z.to_nat (Z.min (j + 1) (n - 1))) ss 0.
Proof.
  intros Hs Hne Hq Hden n j. unfold rquantile. fold n. fold j.
  assert (Hn : (0 < n)%Z) by (unfold n; destruct ss; [contradiction | simpl; lia]).
  destruct (quantile_position Hn Hq Hden) as [Hj Hr]. cbv zeta in Hj, Hr.
  fold j in Hj.
  set (lo := nth (Z.to_nat j) ss 0).
  set (hi := nth (Z.to_nat (Z.min (j + 1) (n - 1))) ss 0).
  assert (Hlh : lo <= hi) by (apply sorted_nth; [exact Hs | unfold n in *; lia]).
  assert (Hd : 0 < IZR den) by now apply IZR_lt.
  assert (Hg0 : 0 <= IZR (((n - 1) * num) mod den) / IZR den).
  { apply Rmult_le_pos; [apply IZR_le; lia|].
    apply Rlt_le, Rinv_0_lt_compat, Hd. }
  assert (Hg1 : IZR (((n - 1) * num) mod den) / IZR den <= 1).
  { apply Rmult_le_reg_r with (IZR den); [exact Hd|].
    unfold Rdiv. rewrite Rmult_assoc, Rinv_l, Rmult_1_r, Rmult_1_l by lra.
    apply IZR_le. lia. }
  set (g := IZR (((n - 1) * num) mod den) / IZR den) in *.
  split; nra.
Qed.

(** A larger fraction gives a larger quantile. *)
Lemma rquantile_monotone (ss : list R) (num1 num2 den : Z) :
  StronglySorted Rle ss -> ss <> [] ->
  (0 <= num1 <= num2)%Z -> (num2 <= den)%Z -> (0 < den)%Z ->
  rquantile ss num1 den <= rquantile ss num2 den.
Proof.
  intros Hs Hne H12 H2 Hden.
  set (n := Z.of_nat (length ss)).
  assert (Hn : (0 < n)%Z) by (unfold n; destruct ss; [contradiction | simpl; lia]).
  assert (Hq1 : (0 <= num1 <= den)%Z) by lia.
  assert (Hq2 : (0 <= num2 <= den)%Z) by lia.
  destruct (rquantile_between Hs Hne Hq1 Hden) as [_ Hu1].
  destruct (rquantile_between Hs Hne Hq2 Hden) as [Hl2 _].
  cbv zeta in Hu1, Hl2. fold n in Hu1, Hl2.
  destruct (quantile_position Hn Hq1 Hden) as [Hj1 Hr1].
  destruct (quantile_position Hn Hq2 Hden) as [Hj2 Hr2].
  cbv zeta in Hj1, Hr1, Hj2, Hr2.
  set (p1 := ((n - 1) * num1)%Z) in *. set (p2 := ((n - 1) * num2)%Z) in *.
  assert (Hp : (p1 <= p2)%Z) by (unfold p1, p2; nia).
  assert (Hjj : (p1 / den <= p2 / den)%Z) by (apply Z.div_le_mono; lia).
  destruct (Z.eq_dec (p1 / den) (p2 / den)) as [Heq | Hneq].
  - unfold rquantile. fold n. fold p1. fold p2. rewrite <- Heq.
    set (lo := nth (Z.to_nat (p1 / den)) ss 0).
    set (hi := nth (Z.to_nat (Z.min (p1 / den + 1) (n - 1))) ss 0).
    assert (Hlh : lo <= hi)
      by (apply sorted_nth; [exact Hs | unfold n in *; lia]).
    assert (Hrr : (p1 mod den <= p2 mod den)%Z).
    { pose proof (Z.div_mod p1 den ltac:(lia)) as E1.
      pose proof (Z.div_mod p2 den ltac:(lia)) as E2.
      rewrite <- Heq in E2. lia. }
    assert (Hd : 0 < / IZR den) by (apply Rinv_0_lt_compat, IZR_lt; lia).
    assert (Hg : IZR (p1 mod den) / IZR den <= IZR (p2 mod den) / IZR den).
    { unfold Rdiv. apply Rmult_le_compat_r; [lra | now apply IZR_le]. }
    nra.
  - apply Rle_trans with (nth (Z.to_nat (p2 / den)) ss 0); [|exact Hl2].
    eapply Rle_trans; [exact Hu1|].
    apply sorted_nth; [exact Hs | unfold n in *; lia].
Qed.

Lemma exact_lt_ge (a b : R) : b <= a -> exact_lt (Some a) (Some b) = false.
Proof.
  intros H. simpl. destruct (Rlt_dec a b); [lra | reflexivity].
Qed.

Lemma rquantile_half (ss : list R) :
  rquantile ss 2 4 = rquantile ss 1 2.
Proof.
  unfold rquantile. set (m := (Z.of_nat (length ss) - 1)%Z).
  assert (Hj : (m * 2 / 4 = m * 1 / 2)%Z).
  { rewrite Z.mul_1_r. change 4%Z with (2 * 2)%Z.
    now rewrite Z.div_mul_cancel_r by lia. }
  assert (Hr : (m * 2 mod 4 = (m * 1 mod 2) * 2)%Z).
  { rewrite Z.mul_1_r. change 4%Z with (2 * 2)%Z.
    now rewrite Z.mul_mod_distr_r by lia. }
  rewrite Hj, Hr, mult_IZR. f_equal. f_equal. field.
Qed.

Lemma present_values_In (xs : list exact) (r : R) :
  In r (present_values xs) <-> In (Some r) xs.
Proof.
  induction xs as [|[x|] xs IH]; simpl; [tauto | |].
  - rewrite IH. split; intros [H | H]; auto; left; congruence.
  - rewrite IH. split; [auto | intros [H | H]; [discriminate | exact H]].
Qed.


End ExactOrder.


(** ** The correlation matrix: symmetry and diagonal *)

Section ExactDiagonal.

Local Open Scope R_scope.

Lemma welford_step_diag (seen : list R) (w : welford exact) (x : R) :
  diag_state seen w ->
  diag_state (seen ++ [x]) (welford_step w (Some x, Some x)).
Proof.
  intros (m & s & Hmx & Hmy & Hsx & Hsy & Hc & Hs & Hn & Hall).
  unfold welford_step. cbn [fisnan exact_arith exact_isnan orb].
  rewrite Hmx, Hmy, Hsx, Hsy, Hc, Hn.
  set (N := IZR (Z.of_nat (length seen) + 1)).
  assert (HN : 1 <= N).
  { unfold N. rewrite plus_IZR. pose proof (IZR_le 0 (Z.of_nat (length seen))).
    assert (0 <= IZR (Z.of_nat (length seen))) by (apply H; lia). lra. }
  set (iN := 1 / N).
  assert (HiN : 0 < iN <= 1).
  { unfold iN. split.
    - apply Rdiv_lt_0_compat; lra.
    - apply Rmult_le_reg_r with N; [lra|]. unfold Rdiv.
      rewrite Rmult_assoc, Rinv_l by lra. lra. }
  set (m' := m + iN * (x - m)).
  set (s' := s + (x - m') * (x - m)).
  assert (Hs'eq : s' = s + (1 - iN) * ((x - m) * (x - m)))
    by (unfold s', m'; ring).
  assert (Hsq : 0 <= (x - m) * (x - m)) by apply Rle_0_sqr.
  assert (Hterm : 0 <= (1 - iN) * ((x - m) * (x - m)))
    by (apply Rmult_le_pos; lra).
  exists m', s'. cbn [meanx meany ssqdm_x ssqdm_y covxy nobs].
  do 5 (split; [reflexivity|]).
  split; [lra|]. split; [rewrite length_app; simpl; lia|].
  intros Hz. assert (Hs0 : s = 0) by lra.
  assert (Ht0 : (1 - iN) * ((x - m) * (x - m)) = 0) by lra.
  apply Forall_app. destruct seen as [|y seen].
  - split; [constructor|]. constructor; [|constructor].
    unfold m', iN, N. simpl. field.
  - assert (H2 : 2 <= N).
    { unfold N. rewrite plus_IZR.
      assert (1 <= IZR (Z.of_nat (length (y :: seen))))
        by (apply IZR_le; simpl; lia). lra. }
    assert (HiN2 : iN <= / 2).
    { unfold iN, Rdiv. rewrite Rmult_1_l.
      apply Rinv_le_contravar; lra. }
    assert (Hxm : (x - m) * (x - m) = 0).
    { apply Rmult_integral in Ht0 as [H | H]; [lra | exact H]. }
    apply Rmult_integral in Hxm.
    assert (Hx : x = m) by lra.
    assert (Hm' : m' = m) by (unfold m'; rewrite Hx; ring).
    rewrite Hm'. split; [now apply Hall|]. constructor; [now symmetry|].
    constructor.
Qed.

Lemma fold_welford_diag (xs : list exact) (seen : list R) (w : welford exact) :
  diag_state seen w ->
  diag_state (seen ++ present_values xs)
             (fold_left welford_step (combine xs xs) w).
Proof.
  revert seen w. induction xs as [|[x|] xs IH]; intros seen w Hw.
  - simpl. now rewrite app_nil_r.
  - simpl combine. simpl fold_left.
    change (present_values (Some x :: xs)) with (x :: present_values xs).
    replace (seen ++ x :: present_values xs)
      with ((seen ++ [x]) ++ present_values xs)
      by (now rewrite <- app_assoc).
    apply IH. now apply welford_step_diag.
  - simpl. apply IH. exact Hw.
Qed.

(** The coefficient of a column with itself is 1 as soon as two of its
    present values differ. *)
Lemma nancorr_self (xs : list exact) (a b : R) :
  In (Some a) xs -> In (Some b) xs -> a <> b ->
  nancorr xs xs = Some 1.
Proof.
  intros Ha Hb Hab. unfold nancorr. cbv zeta.
  assert (H0 : diag_state [] welford_init).
  { exists 0, 0. do 5 (split; [reflexivity|]).
    split; [lra|]. split; [reflexivity|]. intros _. constructor. }
  destruct (fold_welford_diag xs H0)
    as (m & s & _ & _ & Hsx & Hsy & Hc & Hs & Hn & Hall).
  simpl app in Hn, Hall. rewrite Hsx, Hsy, Hc, Hn.
  apply present_values_In in Ha, Hb.
  assert (Hpos : 0 < s).
  { destruct (Rle_lt_or_eq_dec 0 s Hs) as [H | H]; [exact H|].
    exfalso. symmetry in H. specialize (Hall H).
    rewrite Forall_forall in Hall.
    apply Hab. now rewrite <- (Hall a Ha), <- (Hall b Hb). }
  assert (Hlen : (1 <= Z.of_nat (length (present_values xs)))%Z).
  { destruct (present_values xs); [contradiction | simpl; lia]. }
  destruct (Z.of_nat (length (present_values xs)) <? 1)%Z eqn:E;
    [apply Z.ltb_lt in E; lia|].
  simpl. destruct (Rlt_dec (s * s) 0) as [H | _]; [nra|].
  rewrite sqrt_square by lra.
  simpl. destruct (Req_dec_T s 0) as [H | _]; [lra|].
  simpl. f_equal. field. lra.
Qed.

End ExactDiagonal.



(** ** More on the trend *)

Section TrendFacts.

Context {F : Type} {A : Arith F} {L : ArithLaws F}.

Lemma diffs_all_nan (prev : F) (xs : list F) :
  (forall i a b, nth_error (prev :: xs) i = Some a ->
                 nth_error (prev :: xs) (S i) = Some b ->
                 fisnan a = true \/ fisnan b = true) ->
  Forall (fun d => fisnan d = true) (diffs prev xs).
Proof.
  revert prev. induction xs as [|x xs IH]; intros prev H; simpl.
  - constructor.
  - constructor.
    + destruct (H 0 prev x eq_refl eq_refl) as [Hn | Hn];
        [now apply fsub_nan_r | now apply fsub_nan_l].
    + apply IH. intros i a b Ha Hb. exact (H (S i) a b Ha Hb).
Qed.

Lemma notna_values_all_nan (ds : list F) :
  Forall (fun d => fisnan d = true) ds -> notna_values ds = [].
Proof.
  induction 1 as [|d ds Hd Hds IH]; simpl; [reflexivity|].
  now rewrite Hd.
Qed.

(** X14.  At either arithmetic: when no two consecutive rows of a numeric
    column both hold a value (in particular when the column has fewer than
    two rows), no difference is defined and the page reports no clear
    trend. *)
Theorem trend_flat_without_pairs (df : frame F) (name : string)
        (xs : list F) :
  lookup name (columns df) = Some (Float64 xs) ->
  (forall i a b, nth_error xs i = Some a -> nth_error xs (S i) = Some b ->
                 fisnan a = true \/ fisnan b = true) ->
  notna_values (diff_values xs) = []
  /\ analyze_trend df (Some name) = Ok Flat.
Proof.
  intros Hl Hpairs.
  assert (Hd : notna_values (diff_values xs) = []).
  { apply notna_values_all_nan. destruct xs as [|x xs]; simpl.
    - constructor.
    - constructor; [apply fnan_isnan | now apply diffs_all_nan]. }
  split; [exact Hd|].
  rewrite (analyze_trend_numeric df name Hl). f_equal.
  apply classify_nan. unfold nanmean. rewrite Hd. apply fnan_isnan.
Qed.

End TrendFacts.

(** A column in which every other entry is missing, in binary64. *)
Lemma trend_flat_without_pairs_witness :
  notna_values (diff_values [5; PrimFloat.nan; 9]%float) = []
  /\ analyze_trend (single_column "z" [5; PrimFloat.nan; 9]%float) (Some "z")
     = Ok Flat.
Proof.
  apply (@trend_flat_without_pairs float binary64 binary64_laws
           (single_column "z" [5; PrimFloat.nan; 9]%float) "z"
           [5; PrimFloat.nan; 9]%float).
  - reflexivity.
  - intros [|[|[|i]]] a b Ha Hb; simpl in Ha, Hb;
      try discriminate; injection Ha as <-; injection Hb as <-;
      [right | left]; reflexivity.
Defined.

Section ExactAffine.

Local Open Scope R_scope.

Lemma diffs_affine (k c : R) (prev : exact) (xs : list exact) :
  diffs (affine k c prev) (map (affine k c) xs)
  = map (scaled k) (diffs prev xs).
Proof.
  revert prev. induction xs as [|x xs IH]; intros prev; simpl;
    [reflexivity|].
  rewrite IH. f_equal.
  destruct x as [x|], prev as [p|]; unfold affine, scaled; simpl;
    try reflexivity.
  f_equal. ring.
Qed.

Lemma present_values_scale (k : R) (ds : list exact) :
  present_values (map (scaled k) ds)
  = map (Rmult k) (present_values ds).
Proof.
  induction ds as [|[d|] ds IH]; simpl; [reflexivity | | exact IH].
  now rewrite IH.
Qed.

Lemma rsum_scale (k : R) (rs : list R) :
  rsum (map (Rmult k) rs) = k * rsum rs.
Proof.
  induction rs as [|r rs IH]; [unfold rsum; simpl; ring|].
  simpl map. rewrite !rsum_cons, IH. ring.
Qed.

(** The mean of the scaled differences is the scaled mean. *)
Lemma nanmean_scale (k : R) (ds : list exact) :
  nanmean (map (scaled k) ds) = scaled k (nanmean ds).
Proof.
  destruct (present_values ds) as [|r rs] eqn:E.
  - unfold nanmean.
    rewrite !notna_values_present, present_values_scale, E. reflexivity.
  - assert (Hne : present_values ds <> []) by (rewrite E; discriminate).
    assert (Hne' : present_values (map (scaled k) ds) <> []).
    { rewrite present_values_scale, E. discriminate. }
    rewrite (nanmean_exact _ Hne), (nanmean_exact _ Hne').
    rewrite present_values_scale, rsum_scale, length_map.
    unfold scaled. simpl. f_equal. field.
    apply not_0_IZR. rewrite E. simpl. lia.
Qed.

Lemma classify_scale (k : R) (m : exact) :
  (0 < k -> classify (scaled k m) = classify m)
  /\ (k < 0 -> classify (scaled k m) = opposite (classify m)).
Proof.
  destruct m as [q|]; [|split; reflexivity].
  unfold scaled.
  destruct (classify_exact q) as (Hi & Hd & Hf).
  destruct (classify_exact (k * q)) as (Hi' & Hd' & Hf').
  change (lift2 Rmult (Some k) (Some q)) with (Some (k * q) : exact).
  split; intros Hk;
    destruct (Rtotal_order q 0) as [Hq | [Hq | Hq]].
  - refine (eq_trans (_ : _ = Decreasing) (eq_sym (proj2 Hd Hq))).
    apply Hd'. nra.
  - refine (eq_trans (_ : _ = Flat) (eq_sym (proj2 Hf Hq))).
    apply Hf'. nra.
  - refine (eq_trans (_ : _ = Increasing) (eq_sym (proj2 Hi Hq))).
    apply Hi'. nra.
  - refine (eq_trans (_ : _ = Increasing)
              (eq_sym (f_equal opposite (proj2 Hd Hq)))).
    apply Hi'. nra.
  - refine (eq_trans (_ : _ = Flat)
              (eq_sym (f_equal opposite (proj2 Hf Hq)))).
    apply Hf'. nra.
  - refine (eq_trans (_ : _ = Decreasing)
              (eq_sym (f_equal opposite (proj2 Hi Hq)))).
    apply Hd'. nra.
Qed.


End ExactAffine.


(** ** The counts of a text column *)

Section ValueCounts.

Lemma pyobj_eqb_eq (a b : pyobj) : pyobj_eqb a b = true <-> a = b.
Proof.
  destruct a as [s|x], b as [t|y]; simpl.
  - rewrite String.eqb_eq. split; congruence.
  - split; discriminate.
  - split; discriminate.
  - rewrite Z.eqb_eq. split; congruence.
Qed.

Lemma pyobj_eqb_refl (a : pyobj) : pyobj_eqb a a = true.
Proof.
  now apply pyobj_eqb_eq.
Qed.

Lemma get_count_value (u v : pyobj) (acc : list (pyobj * nat)) :
  get_count u (count_value v acc)
  = if pyobj_eqb u v then S (get_count u acc) else get_count u acc.
Proof.
  induction acc as [|[w k] acc IH]; simpl.
  - destruct (pyobj_eqb u v); reflexivity.
  - destruct (pyobj_eqb v w) eqn:Evw; simpl.
    + apply pyobj_eqb_eq in Evw. subst w.
      destruct (pyobj_eqb u v); reflexivity.
    + destruct (pyobj_eqb u w) eqn:Euw; [|exact IH].
      apply pyobj_eqb_eq in Euw. subst w.
      destruct (pyobj_eqb u v) eqn:Euv; [|reflexivity].
      apply pyobj_eqb_eq in Euv. subst v.
      rewrite pyobj_eqb_refl in Evw. discriminate.
Qed.

Lemma count_value_keys (v : pyobj) (acc : list (pyobj * nat)) :
  (In v (map fst acc) /\ map fst (count_value v acc) = map fst acc)
  \/ (~ In v (map fst acc)
      /\ map fst (count_value v acc) = map fst acc ++ [v]).
Proof.
  induction acc as [|[w k] acc IH]; simpl.
  - right. split; [tauto | reflexivity].
  - destruct (pyobj_eqb v w) eqn:E; simpl.
    + apply pyobj_eqb_eq in E. subst w. left. split; [now left | reflexivity].
    + assert (Hne : w <> v).
      { intros ->. rewrite pyobj_eqb_refl in E. discriminate. }
      destruct IH as [[Hin He] | [Hin He]]; rewrite He.
      * left. split; [now right | reflexivity].
      * right. split; [intros [H | H]; contradiction | reflexivity].
Qed.

Lemma count_value_positive (v : pyobj) (acc : list (pyobj * nat)) :
  Forall (fun e => 1 <= snd e) acc ->
  Forall (fun e => 1 <= snd e) (count_value v acc).
Proof.
  induction 1 as [|[w k] acc Hk Hacc IH]; simpl.
  - repeat constructor.
  - destruct (pyobj_eqb v w); constructor; simpl in *; auto; lia.
Qed.

Lemma count_value_sum (v : pyobj) (acc : list (pyobj * nat)) :
  list_sum (map snd (count_value v acc)) = S (list_sum (map snd acc)).
Proof.
  induction acc as [|[w k] acc IH]; simpl; [reflexivity|].
  destruct (pyobj_eqb v w); simpl; [reflexivity|]. rewrite IH. lia.
Qed.

Lemma occurrences_app (v : pyobj) (l1 l2 : list (option pyobj)) :
  occurrences v (l1 ++ l2) = occurrences v l1 + occurrences v l2.
Proof.
  unfold occurrences. now rewrite filter_app, length_app.
Qed.

Lemma present_count_app (l1 l2 : list (option pyobj)) :
  present_count (l1 ++ l2) = present_count l1 + present_count l2.
Proof.
  unfold present_count. now rewrite filter_app, length_app.
Qed.

Lemma counted_step (seen : list (option pyobj)) (acc : list (pyobj * nat))
      (o : option pyobj) :
  counted seen acc ->
  counted (seen ++ [o])
          (match o with Some v => count_value v acc | None => acc end).
Proof.
  intros (Hnd & Hpos & Hget & Hsum). destruct o as [v|].
  - split; [|split; [|split]].
    + destruct (count_value_keys v acc) as [[_ ->] | [Hin ->]]; [exact Hnd|].
      apply NoDup_app; [exact Hnd | repeat constructor; simpl; tauto|].
      intros x Hx [<- | []]. contradiction.
    + now apply count_value_positive.
    + intros u. rewrite get_count_value, occurrences_app, Hget.
      change (occurrences u [Some v])
        with (length (if pyobj_eqb u v then [Some v] else [])).
      destruct (pyobj_eqb u v); simpl; lia.
    + rewrite count_value_sum, present_count_app, Hsum.
      change (present_count [Some v]) with 1. lia.
  - split; [exact Hnd | split; [exact Hpos | split]].
    + intros u. rewrite occurrences_app, Hget.
      change (occurrences u [None]) with 0. lia.
    + rewrite present_count_app, Hsum.
      change (present_count [None]) with 0. lia.
Qed.

Lemma tally_counted (os seen : list (option pyobj))
      (acc : list (pyobj * nat)) :
  counted seen acc ->
  counted (seen ++ os)
          (fold_left (fun acc o => match o with
                                   | Some v => count_value v acc
                                   | None => acc
                                   end) os acc).
Proof.
  revert seen acc. induction os as [|o os IH]; intros seen acc H; simpl.
  - now rewrite app_nil_r.
  - replace (seen ++ o :: os) with ((seen ++ [o]) ++ os)
      by now rewrite <- app_assoc.
    apply IH. now apply counted_step.
Qed.

Lemma get_count_In (v : pyobj) (k : nat) (acc : list (pyobj * nat)) :
  NoDup (map fst acc) ->
  (In (v, k) acc <-> In v (map fst acc) /\ get_count v acc = k).
Proof.
  induction acc as [|[w j] acc IH]; simpl; intros Hnd.
  - tauto.
  - inversion Hnd as [|? ? Hw Hnd']; subst.
    destruct (pyobj_eqb v w) eqn:E.
    + apply pyobj_eqb_eq in E. subst w. split.
      * intros [[= ->] | Hin]; [tauto|].
        exfalso. apply Hw. change v with (fst (v, k)). now apply in_map.
      * intros [_ ->]. now left.
    + assert (Hne : w <> v).
      { intros ->. rewrite pyobj_eqb_refl in E. discriminate. }
      rewrite (IH Hnd'). split.
      * intros [[= -> _] | H]; [contradiction | tauto].
      * intros [[H | H] Hg]; [contradiction | right; tauto].
Qed.

Lemma get_count_key (v : pyobj) (acc : list (pyobj * nat)) :
  Forall (fun e => 1 <= snd e) acc ->
  (In v (map fst acc) <-> 1 <= get_count v acc).
Proof.
  induction 1 as [|[w j] acc Hj Hacc IH]; simpl.
  - split; [tauto | lia].
  - destruct (pyobj_eqb v w) eqn:E.
    + apply pyobj_eqb_eq in E. subst w. simpl in Hj. tauto.
    + rewrite <- IH. split; [|tauto].
      intros [-> | H]; [|exact H].
      rewrite pyobj_eqb_refl in E. discriminate.
Qed.

Lemma insert_by_count_perm (e : pyobj * nat) (l : list (pyobj * nat)) :
  Permutation (insert_by_count e l) (e :: l).
Proof.
  induction l as [|f l IH]; simpl; [reflexivity|].
  destruct (Nat.leb (snd f) (snd e)); [reflexivity|].
  rewrite IH. apply perm_swap.
Qed.

Lemma sort_by_count_perm (l : list (pyobj * nat)) :
  Permutation (fold_right insert_by_count [] l) l.
Proof.
  induction l as [|e l IH]; simpl; [reflexivity|].
  rewrite insert_by_count_perm. now constructor.
Qed.

Lemma insert_by_count_sorted (e : pyobj * nat) (l : list (pyobj * nat)) :
  StronglySorted (fun a b => snd b <= snd a) l ->
  StronglySorted (fun a b => snd b <= snd a) (insert_by_count e l).
Proof.
  induction 1 as [|f l Hl IH Hf]; simpl.
  - repeat constructor.
  - destruct (Nat.leb (snd f) (snd e)) eqn:E.
    + apply Nat.leb_le in E. constructor; [now constructor|].
      constructor; [exact E|].
      eapply Forall_impl; [|exact Hf]. simpl. intros; lia.
    + apply Nat.leb_gt in E. constructor; [exact IH|].
      apply Forall_forall. intros x Hx.
      apply (Permutation_in _ (insert_by_count_perm e l)) in Hx.
      destruct Hx as [<- | Hx]; [lia|].
      rewrite Forall_forall in Hf. now apply Hf.
Qed.

Lemma sort_by_count_sorted (l : list (pyobj * nat)) :
  StronglySorted (fun a b => snd b <= snd a)
                 (fold_right insert_by_count [] l).
Proof.
  induction l as [|e l IH]; simpl; [constructor|].
  now apply insert_by_count_sorted.
Qed.

Lemma list_sum_perm (l1 l2 : list nat) :
  Permutation l1 l2 -> list_sum l1 = list_sum l2.
Proof.
  induction 1; simpl; lia.
Qed.

(** X16.  For every text column, [value_counts] lists each value that is
    present exactly once, with the number of entries that hold it (at least
    one); the counts add up to the number of present entries, missing
    entries not being counted; and the counts never increase along the
    list. *)
Theorem value_counts_counts (os : list (option pyobj)) :
  NoDup (map fst (value_counts os))
  /\ (forall v k, In (v, k) (value_counts os)
                  <-> k = occurrences v os /\ 1 <= k)
  /\ list_sum (map snd (value_counts os)) = present_count os
  /\ StronglySorted (fun a b => snd b <= snd a) (value_counts os).
Proof.
  assert (H0 : counted [] []).
  { split; [constructor | split; [constructor | split; [|reflexivity]]].
    intros v. reflexivity. }
  destruct (tally_counted os H0) as (Hnd & Hpos & Hget & Hsum).
  simpl app in *. fold (tally os) in *.
  pose proof (sort_by_count_perm (tally os)) as Hperm.
  fold (value_counts os) in Hperm.
  split; [|split; [|split]].
  - apply (Permutation_NoDup (l := map fst (tally os))); [|exact Hnd].
    symmetry. now apply Permutation_map.
  - intros v k. split.
    + intros Hin. apply (Permutation_in _ Hperm) in Hin.
      apply (@get_count_In v k _ Hnd) in Hin as [Hkey Hk].
      apply (@get_count_key v _ Hpos) in Hkey.
      rewrite Hget in Hk, Hkey. split; [now symmetry | lia].
    + intros [-> Hk]. apply (Permutation_in _ (Permutation_sym Hperm)).
      apply (@get_count_In v _ _ Hnd). split; [|apply Hget].
      apply (@get_count_key v _ Hpos). now rewrite Hget.
  - rewrite <- Hsum. apply list_sum_perm. now apply Permutation_map.
  - apply sort_by_count_sorted.
Qed.

End ValueCounts.

(** ** Which rows and which columns are dropped *)

Section Dropped.

Context {F : Type} {A : Arith F}.

Lemma nth_zip_orb (p k : nat) (a b : list bool) :
  length a = k -> length b = k ->
  nth p (zip_with orb a b) false = nth p a false || nth p b false.
Proof.
  revert p a b. induction k as [|k IH]; intros p [|x a] [|y b] Ha Hb;
    simpl in *; try discriminate.
  - now destruct p.
  - destruct p as [|p]; [reflexivity|]. apply IH; lia.
Qed.

Lemma nth_repeat_false (p k : nat) : nth p (repeat false k) false = false.
Proof.
  revert p. induction k as [|k IH]; intros [|p]; simpl; auto.
Qed.

Lemma nth_row_has_na (p k : nat) (cols : list (string * series F)) :
  Forall (fun c => series_len (snd c) = k) cols ->
  (nth p (fold_right (fun c acc => zip_with orb (isna (snd c)) acc)
                     (repeat false k) cols) false = false
   <-> forall c, In c cols -> nth p (isna (snd c)) false = false).
Proof.
  induction 1 as [|c cols Hc Hcols IH]; simpl.
  - rewrite nth_repeat_false. split; [intros _ c [] | reflexivity].
  - rewrite (@nth_zip_orb p k)
      by (rewrite ?isna_length; auto using row_has_na_length).
    rewrite orb_false_iff, IH. split.
    + intros [H1 H2] c' [<- | Hin]; auto.
    + intros H. split; [apply H; now left|]. intros c' Hin. apply H. now right.
Qed.


End Dropped.

